(** * Futures of hareactive: the push-propagation core of [src/future.ts]

    A shallow embedding of the [Future] class hierarchy.  JavaScript objects
    live in a heap addressed by references; every method of the source is a
    computation in a state-and-exception monad.  Dynamic dispatch of [push]
    is a match on the class of the receiver.  The mutual recursion between
    [resolve], [push] and [listen] is tied by a recursion budget on [push]:
    each dynamic call of [push] spends one unit, which stands for the depth
    of the JavaScript call stack. *)

From Stdlib Require Import ZArith String.
From stdpp Require Import base list strings.

#[local] Unset Default Proof Using.

(** ** Values, references, events *)

(** References into the heap. *)
Abbreviation ref := nat.

(** The JavaScript values that futures of this development carry. *)
Inductive val : Type :=
| VUndefined
| VNum (z : Z)
| VStr (s : string)
| VBool (b : bool).

(** A JavaScript function applied to an argument list, with its declared
    [length] (the number of formal parameters). *)
Record jsfun := JsFun { fn_length : nat; fn_apply : list val → val }.

(** Ghost log.  [Resolved r v] records a call of [r.resolve(v)], [Called f a]
    a call of the side-effecting callback [f] of a subscription with
    argument [a], [Added b o] and [Removed b o] the calls [b.addListener(o)]
    and [b.removeListener(o)] on a behavior. *)
Inductive event : Type :=
| Resolved (r : ref) (v : val)
| Called (f : nat) (a : val)
| Added (b : nat) (o : ref)
| Removed (b : nat) (o : ref).

(** ** The objects *)

(** What a user closure that returns a future may do: hand back a future it
    already holds, or build a new one with the public combinators. *)
#[local] Unset Elimination Schemes.
Inductive fexpr : Type :=
| EFuture (r : ref)
| EOf (v : val)
| ESink
| EMap (g : val → val) (e : fexpr)
| EMapTo (v : val) (e : fexpr)
| EChain (g : val → fexpr) (e : fexpr)
| ELift (g : jsfun) (es : list fexpr).
#[local] Set Elimination Schemes.

(** Induction on closures' results, through the argument list of a lift. *)
Section FexprInd.
Variable P : fexpr → Prop.
Hypothesis HFuture : ∀ r, P (EFuture r).
Hypothesis HOf : ∀ v, P (EOf v).
Hypothesis HSink : P ESink.
Hypothesis HMap : ∀ g e, P e → P (EMap g e).
Hypothesis HMapTo : ∀ v e, P e → P (EMapTo v e).
Hypothesis HChain : ∀ g e, P e → P (EChain g e).
Hypothesis HLift : ∀ g es, Forall P es → P (ELift g es).

Fixpoint fexpr_ind (e : fexpr) : P e :=
  match e with
  | EFuture r => HFuture r
  | EOf v => HOf v
  | ESink => HSink
  | EMap g e => HMap g e (fexpr_ind e)
  | EMapTo v e => HMapTo v e (fexpr_ind e)
  | EChain g e => HChain g e (fexpr_ind e)
  | ELift g es =>
      HLift g es
        ((fix all (es : list fexpr) : Forall P es :=
            match es with
            | [] => Forall_nil_2 P
            | e :: es => Forall_cons_2 P e es (fexpr_ind e) (all es)
            end) es)
  end.
End FexprInd.

(** An entry of [LiftFuture.futures]: a parent future until the lift fires,
    the parent's value afterwards ([this.futures[i] = this.futures[i].value]). *)
Inductive slot : Type :=
| SFuture (r : ref)
| SValue (v : val).

(** The subclasses of [Future] with their private fields. *)
Inductive kind : Type :=
| MapFuture (f : val → val) (parent : ref)
| MapToFuture (parent : ref)
| PureFuture
| LiftFuture (f : jsfun) (futures : list slot) (delivered dependencies : nat)
| ChainFuture (f : val → fexpr) (parent : ref) (parentOccurred : bool)
| FutureSink
| BehaviorFuture (b : nat).

(** The fields of the abstract class [Future].  [occurred] is [undefined]
    until it is set to [true]; the source only ever tests [occurred !== true],
    so [false] stands for [undefined]. *)
Record future := MkFuture {
  occurred : bool;
  value : val;
  listeners : list ref;
  cls : kind
}.

(** A consumer is a future or a [Subscription]; the callback of a
    subscription is named by a number and its call is logged. *)
Inductive obj : Type :=
| OFuture (fu : future)
| OSubscription (f : nat) (parent : ref).

(** The whole store.  The external [Behavior] class is not part of the
    sources; a behavior is kept as the list of the observers registered on
    it (see [addListener] and [removeListener] below), and the behaviors of
    a state are the entries of its field [behaviors]. *)
Record state := MkState {
  heap : list obj;
  behaviors : list (list ref);
  log : list event
}.

(** The state of a program that has created nothing yet. *)
Definition empty_state : state := MkState [] [] [].

(** ** The monad of method bodies *)

(** How a call ends: normally with a result, by an exception, or cut off
    because the recursion budget of [push] is used up. *)
Inductive outcome (A : Type) : Type :=
| Ok (a : A) (s : state)
| Throw (e : string) (s : state)
| OutOfFuel.
Arguments Ok {A} a s.
Arguments Throw {A} e s.
Arguments OutOfFuel {A}.

Definition M (A : Type) : Type := state → outcome A.

#[global] Instance M_ret : MRet M := λ A a s, Ok a s.
#[global] Instance M_bind : MBind M := λ A B k m s,
  match m s with
  | Ok a s' => k a s'
  | Throw e s' => Throw e s'
  | OutOfFuel => OutOfFuel
  end.

Definition throw {A} (e : string) : M A := λ s, Throw e s.

(** The errors of the source, and the [TypeError] of the JavaScript
    runtime on a property access that the types of the source exclude. *)
Definition TypeError : string := "TypeError".
Definition PureError : string := "A PureFuture should never be pushed to.".
Definition SinkError : string := "A sink should never be pushed to.".
Definition DownError : string :=
  "Behavior future does not support pushing behavior".

Definition getObj (r : ref) : M obj := λ s,
  match heap s !! r with
  | Some o => Ok o s
  | None => Throw TypeError s
  end.

Definition getFuture (r : ref) : M future :=
  o ← getObj r;
  match o with
  | OFuture fu => mret fu
  | OSubscription _ _ => throw TypeError
  end.

Definition setFuture (r : ref) (fu : future) : M unit := λ s,
  Ok () (MkState (<[r := OFuture fu]> (heap s)) (behaviors s) (log s)).

Definition alloc (o : obj) : M ref := λ s,
  Ok (length (heap s)) (MkState (heap s ++ [o]) (behaviors s) (log s)).

Definition emit (e : event) : M unit := λ s,
  Ok () (MkState (heap s) (behaviors s) (log s ++ [e])).

(** [for (let i = lo; i < lo + n; ++i) body(i)] *)
Fixpoint for_loop (n lo : nat) (body : nat → M unit) : M unit :=
  match n with
  | 0 => mret ()
  | S n => body lo;; for_loop n (S lo) body
  end.

(** Field updates. *)
Definition with_listeners (ls : list ref) (fu : future) : future :=
  MkFuture (occurred fu) (value fu) ls (cls fu).
Definition with_value (v : val) (fu : future) : future :=
  MkFuture true v (listeners fu) (cls fu).
Definition with_cls (k : kind) (fu : future) : future :=
  MkFuture (occurred fu) (value fu) (listeners fu) k.

(** Modelled from the spec: [Behavior.addListener], which is not part of
    the sources, registers an observer on the behavior. *)
Definition addListener (b : nat) (o : ref) : M unit := λ s,
  match behaviors s !! b with
  | Some obs =>
      Ok () (MkState (heap s) (<[b := obs ++ [o]]> (behaviors s))
                     (log s ++ [Added b o]))
  | None => Throw TypeError s
  end.

(** Modelled from the spec: [Behavior.removeListener] deregisters the
    observer, which is then no longer among the observers of the behavior. *)
Definition removeListener (b : nat) (o : ref) : M unit := λ s,
  match behaviors s !! b with
  | Some obs =>
      Ok () (MkState (heap s)
                     (<[b := filter (λ x, x ≠ o) obs]> (behaviors s))
                     (log s ++ [Removed b o]))
  | None => Throw TypeError s
  end.

(** ** The methods, over the dispatcher [push] *)

Section Methods.
(** [push o v] is the dynamic call [o.push(v)]. *)
Variable push : ref → val → M unit.

(** [Future.listen], lines 28-34. *)
Definition listen (this o : ref) : M unit :=
  fu ← getFuture this;
  if occurred fu then push o (value fu)
  else setFuture this (with_listeners (listeners fu ++ [o]) fu).

(** [Future.resolve], lines 41-48.  [listeners] aliases the array of the
    object, so [listeners[i]] is read from the heap at each iteration; the
    length [l] is read once, before the loop. *)
Definition resolve (this : ref) (v : val) : M unit :=
  fu ← getFuture this;
  setFuture this (with_value v fu);;
  emit (Resolved this v);;
  for_loop (length (listeners fu)) 0 (λ i,
    fu' ← getFuture this;
    match listeners fu' !! i with
    | Some o => push o v
    | None => throw TypeError
    end).

(** The constructors.  Each allocates the object with the fields of the
    base class ([listeners = []]) and runs the rest of the constructor. *)
Definition fresh (v : val) (occ : bool) (k : kind) : M ref :=
  alloc (OFuture (MkFuture occ v [] k)).

Definition newMapFuture (f : val → val) (parent : ref) : M ref :=
  this ← fresh VUndefined false (MapFuture f parent);
  listen parent this;;
  mret this.

Definition newMapToFuture (v : val) (parent : ref) : M ref :=
  this ← fresh v false (MapToFuture parent);
  listen parent this;;
  mret this.

Definition newPureFuture (v : val) : M ref :=
  fresh v true PureFuture.

Definition newLiftFuture (f : jsfun) (futures : list ref) : M ref :=
  let l := length futures in
  this ← fresh VUndefined false (LiftFuture f (SFuture <$> futures) 0 l);
  for_loop l 0 (λ i,
    match futures !! i with
    | Some p => listen p this
    | None => throw TypeError
    end);;
  mret this.

Definition newChainFuture (f : val → fexpr) (parent : ref) : M ref :=
  this ← fresh VUndefined false (ChainFuture f parent false);
  listen parent this;;
  mret this.

Definition newFutureSink : M ref :=
  fresh VUndefined false FutureSink.

Definition newSubscription (f : nat) (parent : ref) : M ref :=
  this ← alloc (OSubscription f parent);
  listen parent this;;
  mret this.

Definition newBehaviorFuture (b : nat) : M ref :=
  this ← fresh VUndefined false (BehaviorFuture b);
  addListener b this;;
  mret this.

(** The public methods of [Future], lines 35-37 and 51-80. *)
Definition subscribe (f : nat) (this : ref) : M unit :=
  newSubscription f this;; mret ().

Definition map (f : val → val) (this : ref) : M ref :=
  newMapFuture f this.

Definition mapTo (b : val) (this : ref) : M ref :=
  newMapToFuture b this.

(** [Future.of]; [of] is a reserved word here. *)
Definition of_ (b : val) : M ref :=
  newPureFuture b.

(** [lift(f, ...args)], lines 69-72.  A [MapFuture] built here calls its
    function with the single pushed value.  With no argument at all,
    [args[0]] is [undefined] and the constructor of [MapFuture] fails on
    [parent.listen]. *)
Definition lift (f : jsfun) (args : list ref) : M ref :=
  if fn_length f =? 1 then
    match args !! 0 with
    | Some m => newMapFuture (λ v, fn_apply f [v]) m
    | None => throw TypeError
    end
  else newLiftFuture f args.

Definition chain (f : val → fexpr) (this : ref) : M ref :=
  newChainFuture f this.

Definition sinkFuture : M ref := newFutureSink.

(** Running a user closure that returns a future. *)
Fixpoint build (e : fexpr) : M ref :=
  match e with
  | EFuture r => mret r
  | EOf v => of_ v
  | ESink => sinkFuture
  | EMap g e => p ← build e; map g p
  | EMapTo v e => p ← build e; mapTo v p
  | EChain g e => p ← build e; chain g p
  | ELift g es =>
      ps ← (fix build_all (es : list fexpr) : M (list ref) :=
              match es with
              | [] => mret []
              | e :: es => p ← build e; ps ← build_all es; mret (p :: ps)
              end) es;
      lift g ps
  end.

(** Reading [x.value] where [x] is an entry of [LiftFuture.futures]. *)
Definition slot_value (x : slot) : M val :=
  match x with
  | SFuture r =>
      o ← getObj r;
      match o with
      | OFuture fu => mret (value fu)
      | OSubscription _ _ => mret VUndefined
      end
  | SValue VUndefined => throw TypeError
  | SValue _ => mret VUndefined
  end.

(** Reading the field [futures] of a [LiftFuture]. *)
Definition lift_slots (this : ref) : M (list slot) :=
  fu ← getFuture this;
  match cls fu with
  | LiftFuture _ futures _ _ => mret futures
  | _ => throw TypeError
  end.

(** An entry of [futures] as an argument of [f.apply]; when the lift fires
    every entry has been replaced by a value. *)
Definition slot_arg (x : slot) : val :=
  match x with SValue v => v | SFuture _ => VUndefined end.

(** [LiftFuture.push], lines 124-133: [++this.delivered], and on the push
    that makes it equal to [dependencies] the loop that overwrites the
    entries of [futures] with the values of the parents, then [resolve]. *)
Definition pushLift (this : ref) (fu : future) (f : jsfun)
    (futures : list slot) (delivered dependencies : nat) : M unit :=
  let l := dependencies in
  let delivered := S delivered in
  setFuture this (with_cls (LiftFuture f futures delivered l) fu);;
  if delivered =? l then
    for_loop l 0 (λ i,
      xs ← lift_slots this;
      match xs !! i with
      | Some x =>
          v ← slot_value x;
          fu' ← getFuture this;
          setFuture this
            (with_cls (LiftFuture f (<[i := SValue v]> xs) delivered l) fu')
      | None => throw TypeError
      end);;
    xs ← lift_slots this;
    resolve this (fn_apply f (slot_arg <$> xs))
  else mret ().

(** [ChainFuture.push], lines 142-152: the first push runs the closure and
    listens to the future it returns, a later push resolves. *)
Definition pushChain (this : ref) (fu : future) (f : val → fexpr)
    (parent : ref) (parentOccurred : bool) (v : val) : M unit :=
  if negb parentOccurred then
    setFuture this (with_cls (ChainFuture f parent true) fu);;
    newFuture ← build (f v);
    listen newFuture this
  else resolve this v.

(** [o.push(v)]: the method of the class of [o]. *)
Definition push_method (o : ref) (v : val) : M unit :=
  x ← getObj o;
  match x with
  | OSubscription f _ => emit (Called f v)
  | OFuture fu =>
      match cls fu with
      | MapFuture f _ => resolve o (f v)
      | MapToFuture _ => resolve o (value fu)
      | PureFuture => throw PureError
      | LiftFuture f futures delivered dependencies =>
          pushLift o fu f futures delivered dependencies
      | ChainFuture f parent parentOccurred =>
          pushChain o fu f parent parentOccurred v
      | FutureSink => throw SinkError
      | BehaviorFuture b => removeListener b o;; resolve o v
      end
  end.
End Methods.

(** [push n o v]: the call [o.push(v)] with [n] nested dynamic calls left. *)
Fixpoint push (n : nat) (o : ref) (v : val) : M unit :=
  match n with
  | 0 => λ _, OutOfFuel
  | S n => push_method (push n) o v
  end.

(** [BehaviorFuture.changeStateDown], lines 193-195. *)
Definition changeStateDown (this : ref) : M unit := throw DownError.

(** ** Definitions used by the statements *)

(** The three ways a method changes the state. *)
Definition put (r : ref) (fu : future) (s : state) : state :=
  MkState (<[r := OFuture fu]> (heap s)) (behaviors s) (log s).
Definition grow (o : obj) (s : state) : state :=
  MkState (heap s ++ [o]) (behaviors s) (log s).
Definition logged (e : event) (s : state) : state :=
  MkState (heap s) (behaviors s) (log s ++ [e]).

(** [evolves s s'], what every later state keeps: the objects of [s] are
    still there in [s'], a subscription as it was, a future as a future; a
    future that has occurred has still occurred and has the listeners it
    had; no observer was added to a behavior; the log was only appended
    to. *)
Record evolves (s s' : state) : Prop := Evolves {
  evolves_sub : ∀ r f p,
    heap s !! r = Some (OSubscription f p) →
    heap s' !! r = Some (OSubscription f p);
  evolves_fut : ∀ r fu,
    heap s !! r = Some (OFuture fu) →
    ∃ fu', heap s' !! r = Some (OFuture fu') ∧
           (occurred fu = true →
            occurred fu' = true ∧ listeners fu' = listeners fu);
  evolves_obs : ∀ b obs,
    behaviors s !! b = Some obs →
    ∃ obs', behaviors s' !! b = Some obs' ∧ obs' ⊆ obs;
  evolves_log : ∃ rest, log s' = log s ++ rest
}.

(** The state an outcome ends in, if any, satisfies [Q]. *)
Definition final {A} (r : outcome A) (Q : state → Prop) : Prop :=
  match r with
  | Ok _ s' | Throw _ s' => Q s'
  | OutOfFuel => True
  end.

(** A computation that only moves the state forward. *)
Definition mono {A} (m : M A) : Prop := ∀ s, final (m s) (evolves s).

(** Delivery as the specification words it: one [push(v)] to each consumer
    of the sequence [ls], first to last. *)
Fixpoint deliver (push : ref → val → M unit) (ls : list ref) (v : val)
    : M unit :=
  match ls with
  | [] => mret ()
  | o :: ls => push o v;; deliver push ls v
  end.

(** The state right after [resolve] has set the flag and stored the value. *)
Definition settled (this : ref) (v : val) (fu : future) (s : state) : state :=
  MkState (<[this := OFuture (with_value v fu)]> (heap s)) (behaviors s)
          (log s ++ [Resolved this v]).

(** A sink with one subscription (callback 7), resolved once with 1. *)
Definition resolved_once : M ref :=
  sink ← sinkFuture;
  subscribe (push 1) 7 sink;;
  resolve (push 1) sink (VNum 1);;
  mret sink.

(** [x => x * 2] on the values of a [Sink<number>]; the product of a value
    that is not a number is [NaN], which [val] leaves out. *)
Definition times2 (x : val) : val :=
  match x with
  | VNum z => VNum (z * 2)
  | _ => VUndefined
  end.

(** Registering the consumers [cs] on [this], one [listen] after the
    other. *)
Fixpoint listen_each (push : ref → val → M unit) (this : ref)
    (cs : list ref) : M unit :=
  match cs with
  | [] => mret ()
  | c :: cs => listen push this c;; listen_each push this cs
  end.

(** Resolving the futures [order] one after the other, each [r] with the
    value [vs r]. *)
Fixpoint resolve_each (push : ref → val → M unit) (vs : ref → val)
    (order : list ref) : M unit :=
  match order with
  | [] => mret ()
  | r :: order => resolve push r (vs r);; resolve_each push vs order
  end.

(** What a lift [L] over the parents [ps] and its parents look like while
    the parents [resolved] have occurred and the parents [pending] have
    not. *)
Definition awaiting (L : ref) (f : jsfun) (ps : list ref) (vs : ref → val)
    (resolved pending : list ref) (s : state) : Prop :=
  heap s !! L
  = Some (OFuture (MkFuture false VUndefined []
            (LiftFuture f (SFuture <$> ps) (length resolved) (length ps)))) ∧
  (∀ r, r ∈ pending →
        ∃ fu, heap s !! r = Some (OFuture fu) ∧
              occurred fu = false ∧ listeners fu = [L]) ∧
  (∀ r, r ∈ resolved →
        ∃ fu, heap s !! r = Some (OFuture fu) ∧
              occurred fu = true ∧ value fu = vs r).

(** The values [r] was resolved with according to a log, oldest first. *)
Fixpoint resolutions (r : ref) (evs : list event) : list val :=
  match evs with
  | [] => []
  | e :: evs =>
      match e with
      | Resolved r' v =>
          if r =? r' then v :: resolutions r evs else resolutions r evs
      | _ => resolutions r evs
      end
  end.

(** [(a, b, c) => a + b + c] on numbers. *)
Definition add3 : jsfun :=
  JsFun 3 (λ xs,
    match xs with
    | [VNum a; VNum b; VNum c] => VNum (a + b + c)
    | _ => VUndefined
    end).

(** Three pending sinks. *)
Definition three_sinks : state :=
  MkState [OFuture (MkFuture false VUndefined [] FutureSink);
           OFuture (MkFuture false VUndefined [] FutureSink);
           OFuture (MkFuture false VUndefined [] FutureSink)] [] [].

(** ** Definitions used by the further properties *)

(** [this.subscribe(f)] for each callback of [fs], first to last. *)
Fixpoint subscribe_each (push : ref → val → M unit) (fs : list nat)
    (this : ref) : M unit :=
  match fs with
  | [] => mret ()
  | f :: fs => subscribe push f this;; subscribe_each push fs this
  end.

(** The consumers [ls] are subscriptions, with the callbacks [gs]. *)
Definition subscribed (s : state) (ls : list ref) (gs : list nat) : Prop :=
  Forall2 (λ o g, ∃ p, heap s !! o = Some (OSubscription g p)) ls gs.

(** The state with the events [evs] appended to the log. *)
Definition logged_all (evs : list event) (s : state) : state :=
  MkState (heap s) (behaviors s) (log s ++ evs).

(** The calls of the callbacks [gs] with the argument [v]. *)
Definition calls (gs : list nat) (v : val) : list event :=
  (λ g, Called g v) <$> gs.

(** [o.push(x)] for each value of [xs], first to last. *)
Fixpoint push_each (push : ref → val → M unit) (o : ref) (xs : list val)
    : M unit :=
  match xs with
  | [] => mret ()
  | x :: xs => push o x;; push_each push o xs
  end.

(** Resolving futures one after the other, each with its own value. *)
Fixpoint resolve_with (push : ref → val → M unit) (rs : list (ref * val))
    : M unit :=
  match rs with
  | [] => mret ()
  | (r, v) :: rs => resolve push r v;; resolve_with push rs
  end.

(** The value field of the future [r] in the state [s]. *)
Definition stored (s : state) (r : ref) : val :=
  match heap s !! r with
  | Some (OFuture fu) => value fu
  | _ => VUndefined
  end.

(** The value fields after the resolutions [rs], from the fields [init]:
    each future holds the value of its last resolution. *)
Definition stored_after (init : ref → val) (rs : list (ref * val))
    : ref → val :=
  foldl (λ cur qv x, if decide (x = qv.1) then qv.2 else cur x) init rs.

(** A lift [L] over the parents [ps] that has counted [d] pushes and has
    not fired, each parent having [L] as its only listener and holding the
    value [cur r]. *)
Definition attached (L : ref) (f : jsfun) (ps : list ref) (d : nat)
    (cur : ref → val) (s : state) : Prop :=
  heap s !! L
  = Some (OFuture (MkFuture false VUndefined []
            (LiftFuture f (SFuture <$> ps) d (length ps)))) ∧
  ∀ r, r ∈ ps →
       ∃ fu, heap s !! r = Some (OFuture fu) ∧
             listeners fu = [L] ∧ value fu = cur r.

(** A lift [L] that has fired with [result], its parents still having it
    as their only listener. *)
Definition fired (L : ref) (f : jsfun) (ps : list ref) (result : val)
    (s : state) : Prop :=
  (∃ slots d,
     heap s !! L
     = Some (OFuture (MkFuture true result []
               (LiftFuture f slots d (length ps)))) ∧
     length ps ≤ d) ∧
  ∀ r, r ∈ ps →
       ∃ fu, heap s !! r = Some (OFuture fu) ∧ listeners fu = [L].

(** [keeps s s']: no object was removed, every future is still a future,
    and its listeners were only appended to. *)
Record keeps (s s' : state) : Prop := Keeps {
  keeps_length : length (heap s) ≤ length (heap s');
  keeps_future : ∀ r fu,
    heap s !! r = Some (OFuture fu) →
    ∃ fu', heap s' !! r = Some (OFuture fu') ∧
           listeners fu `prefix_of` listeners fu'
}.

(** A computation that keeps the objects and the listeners. *)
Definition steady {A} (m : M A) : Prop := ∀ s, final (m s) (keeps s).

(** [this.map(f1).map(f2)...], one [map] on the result of the one before. *)
Fixpoint map_each (push : ref → val → M unit) (fs : list (val → val))
    (this : ref) : M ref :=
  match fs with
  | [] => mret this
  | f :: fs => m ← map push f this; map_each push fs m
  end.

(** The functions [fs] applied one after the other, the first one first. *)
Definition apply_all (fs : list (val → val)) (v : val) : val :=
  foldl (λ a g, g a) v fs.

(** The resolutions of the map futures at [a], [a + 1], ... over [fs] when
    the first one is pushed [v]. *)
Fixpoint map_events (a : ref) (fs : list (val → val)) (v : val)
    : list event :=
  match fs with
  | [] => []
  | f :: fs => Resolved a (f v) :: map_events (S a) fs (f v)
  end.

(** Pending map futures over [fs] at [a], [a + 1], ..., the first one
    over [par], each one over the one before and listened to by the next
    one only. *)
Fixpoint maps_at (t : state) (a par : ref) (fs : list (val → val)) : Prop :=
  match fs with
  | [] => True
  | f :: fs' =>
      heap t !! a
      = Some (OFuture (MkFuture false VUndefined
                         match fs' with [] => [] | _ :: _ => [S a] end
                         (MapFuture f par))) ∧
      maps_at t (S a) a fs'
  end.

(** ** What every later state keeps *)

Lemma evolves_refl s : evolves s s.
Proof.
  split; eauto.
  exists []. by rewrite app_nil_r.
Qed.

Lemma evolves_trans s1 s2 s3 : evolves s1 s2 → evolves s2 s3 → evolves s1 s3.
Proof.
  intros [S12 F12 B12 [l12 L12]] [S23 F23 B23 [l23 L23]]; split; [eauto|..].
  - intros r fu Hr.
    destruct (F12 _ _ Hr) as (fu2 & H2 & K2).
    destruct (F23 _ _ H2) as (fu3 & H3 & K3).
    exists fu3; split; [done|].
    intros Ho. destruct (K2 Ho) as [Ho2 L2]. destruct (K3 Ho2) as [Ho3 L3].
    split; congruence.
  - intros b obs Hb.
    destruct (B12 _ _ Hb) as (obs2 & H2 & K2).
    destruct (B23 _ _ H2) as (obs3 & H3 & K3).
    exists obs3; split; [done|]. intros x Hx. apply K2, K3, Hx.
  - exists (l12 ++ l23). by rewrite L23, L12, app_assoc.
Qed.

(** A state that differs from [s] in its heap only. *)
Lemma evolves_heap s h :
  (∀ r f p, heap s !! r = Some (OSubscription f p) →
            h !! r = Some (OSubscription f p)) →
  (∀ r fu, heap s !! r = Some (OFuture fu) →
           ∃ fu', h !! r = Some (OFuture fu') ∧
                  (occurred fu = true →
                   occurred fu' = true ∧ listeners fu' = listeners fu)) →
  evolves s (MkState h (behaviors s) (log s)).
Proof.
  intros HS HF. split; simpl; eauto.
  exists []. by rewrite app_nil_r.
Qed.

Lemma final_impl {A} (r : outcome A) (P Q : state → Prop) :
  (∀ s, P s → Q s) → final r P → final r Q.
Proof. destruct r; simpl; auto. Qed.

Lemma final_bind {A B} (m : M A) (k : A → M B) s Q :
  match m s with
  | Ok a s' => final (k a s') Q
  | Throw _ s' => Q s'
  | OutOfFuel => True
  end →
  final ((m ≫= k) s) Q.
Proof. unfold mbind, M_bind. destruct (m s); auto. Qed.

Lemma mono_bind {A B} (m : M A) (k : A → M B) :
  mono m → (∀ a, mono (k a)) → mono (m ≫= k).
Proof.
  intros Hm Hk s. apply final_bind. specialize (Hm s).
  destruct (m s) as [a s'| |]; simpl in *; auto.
  eapply final_impl; [|apply Hk]. eauto using evolves_trans.
Qed.

Lemma mono_ret {A} (a : A) : mono (mret a).
Proof. intros s. apply evolves_refl. Qed.

Lemma mono_throw {A} e : mono (@throw A e).
Proof. intros s. apply evolves_refl. Qed.

Lemma mono_getObj r : mono (getObj r).
Proof. intros s. unfold getObj. destruct (heap s !! r); apply evolves_refl. Qed.

Lemma mono_getFuture r : mono (getFuture r).
Proof.
  apply mono_bind; [apply mono_getObj|].
  intros [fu|f p]; [apply mono_ret|apply mono_throw].
Qed.

Lemma mono_emit e : mono (emit e).
Proof. intros s. split; simpl; eauto. Qed.


Lemma mono_alloc o : mono (alloc o).
Proof.
  intros s. apply evolves_heap.
  - intros r f p Hr. rewrite lookup_app_l; [done|]. by eapply lookup_lt_Some.
  - intros r fu Hr. exists fu. split; [|done].
    rewrite lookup_app_l; [done|]. by eapply lookup_lt_Some.
Qed.

Lemma mono_removeListener b o : mono (removeListener b o).
Proof.
  intros s. unfold removeListener.
  destruct (behaviors s !! b) as [obs|] eqn:Hb; simpl;
    [|apply evolves_refl].
  split; simpl; eauto.
  intros b' obs' Hb'. destruct (decide (b = b')) as [->|Hne].
  - rewrite list_lookup_insert_eq; [|by eapply lookup_lt_Some].
    eexists; split; [done|]. replace obs' with obs by congruence.
    intros x Hx. by apply list_elem_of_filter in Hx as [_ Hx].
  - rewrite list_lookup_insert_ne; eauto.
Qed.

Lemma mono_for_loop n lo body : (∀ i, mono (body i)) → mono (for_loop n lo body).
Proof.
  intros Hb. revert lo. induction n as [|n IH]; intros lo; simpl.
  - apply mono_ret.
  - apply mono_bind; auto.
Qed.

(** Overwriting a future is a step forward when an occurred future stays
    occurred and keeps its listeners. *)
Lemma evolves_setFuture s r fu fu' :
  heap s !! r = Some (OFuture fu) →
  (occurred fu = true → occurred fu' = true ∧ listeners fu' = listeners fu) →
  final (setFuture r fu' s) (evolves s).
Proof.
  intros Hr Hk. simpl. apply evolves_heap.
  - intros r' f p Hr'. rewrite list_lookup_insert_ne; [done|].
    intros ->. congruence.
  - intros r' fu0 Hr'. destruct (decide (r = r')) as [->|Hne].
    + rewrite list_lookup_insert_eq; [|by eapply lookup_lt_Some].
      exists fu'. split; [done|]. by replace fu0 with fu by congruence.
    + rewrite list_lookup_insert_ne; eauto.
Qed.

(** [getFuture r] followed by a continuation that may rely on what it read. *)
Lemma final_getFuture {B} r (k : future → M B) s Q :
  Q s →
  (∀ fu, heap s !! r = Some (OFuture fu) → final (k fu s) Q) →
  final ((getFuture r ≫= k) s) Q.
Proof.
  intros HQ Hk. unfold getFuture, getObj, mbind, M_bind.
  destruct (heap s !! r) as [[fu|f p]|] eqn:Hr; simpl; auto.
Qed.

Lemma final_then {B} (m : M unit) (k : M B) s Q :
  final (m s) (evolves s) →
  (∀ s', evolves s s' → Q s') →
  (∀ s', evolves s s' → final (k s') Q) →
  final ((m;; k) s) Q.
Proof.
  intros Hm HQ Hk. apply final_bind. destruct (m s); simpl in *; auto.
Qed.

Section MonoMethods.
Variable push : ref → val → M unit.
Hypothesis mono_push : ∀ o v, mono (push o v).

Lemma mono_listen this o : mono (listen push this o).
Proof.
  intros s. unfold listen. apply final_getFuture; [apply evolves_refl|].
  intros fu Hfu. destruct (occurred fu) eqn:Ho.
  - apply mono_push.
  - eapply evolves_setFuture; [done|]. congruence.
Qed.

Lemma mono_resolve this v : mono (resolve push this v).
Proof.
  intros s. unfold resolve. apply final_getFuture; [apply evolves_refl|].
  intros fu Hfu. apply final_then.
  - eapply evolves_setFuture; [done|]. simpl. done.
  - done.
  - intros s1 H1. eapply final_impl; [intros ?; by apply evolves_trans|].
    apply mono_bind; [apply mono_emit|]. intros _.
    apply mono_for_loop. intros i.
    apply mono_bind; [apply mono_getFuture|]. intros fu'.
    destruct (listeners fu' !! i); [apply mono_push|apply mono_throw].
Qed.
End MonoMethods.

Lemma mono_update r (g : future → future) :
  (∀ fu, occurred fu = true →
         occurred (g fu) = true ∧ listeners (g fu) = listeners fu) →
  mono (fu ← getFuture r; setFuture r (g fu)).
Proof.
  intros Hg s. apply final_getFuture; [apply evolves_refl|].
  intros fu Hfu. eapply evolves_setFuture; eauto.
Qed.

Lemma mono_slot_value x : mono (slot_value x).
Proof.
  destruct x as [r|[]]; simpl; try apply mono_ret; try apply mono_throw.
  apply mono_bind; [apply mono_getObj|]. intros []; apply mono_ret.
Qed.

Lemma mono_lift_slots this : mono (lift_slots this).
Proof.
  apply mono_bind; [apply mono_getFuture|].
  intros fu. destruct (cls fu); try apply mono_throw. apply mono_ret.
Qed.

Section MonoClasses.
Variable push : ref → val → M unit.
Hypothesis mono_push : ∀ o v, mono (push o v).

Lemma mono_fresh v occ k : mono (fresh v occ k).
Proof. apply mono_alloc. Qed.

Lemma mono_newMapFuture f parent : mono (newMapFuture push f parent).
Proof.
  apply mono_bind; [apply mono_fresh|]. intros this.
  apply mono_bind; [by apply mono_listen|]. intros _. apply mono_ret.
Qed.

Lemma mono_newMapToFuture v parent : mono (newMapToFuture push v parent).
Proof.
  apply mono_bind; [apply mono_fresh|]. intros this.
  apply mono_bind; [by apply mono_listen|]. intros _. apply mono_ret.
Qed.

Lemma mono_newChainFuture f parent : mono (newChainFuture push f parent).
Proof.
  apply mono_bind; [apply mono_fresh|]. intros this.
  apply mono_bind; [by apply mono_listen|]. intros _. apply mono_ret.
Qed.

Lemma mono_newLiftFuture f futures : mono (newLiftFuture push f futures).
Proof.
  apply mono_bind; [apply mono_fresh|]. intros this.
  apply mono_bind; [|intros _; apply mono_ret].
  apply mono_for_loop. intros i.
  destruct (futures !! i); [by apply mono_listen|apply mono_throw].
Qed.

Lemma mono_lift f args : mono (lift push f args).
Proof.
  unfold lift. destruct (fn_length f =? 1).
  - destruct (args !! 0); [apply mono_newMapFuture|apply mono_throw].
  - apply mono_newLiftFuture.
Qed.

Lemma mono_build e : mono (build push e).
Proof.
  induction e as [r|v| |g e IH|v e IH|g e IH|g es IH] using fexpr_ind;
    simpl.
  - apply mono_ret.
  - apply mono_fresh.
  - apply mono_fresh.
  - apply mono_bind; [done|]. intros p. apply mono_newMapFuture.
  - apply mono_bind; [done|]. intros p. apply mono_newMapToFuture.
  - apply mono_bind; [done|]. intros p. apply mono_newChainFuture.
  - apply mono_bind; [|intros ps; apply mono_lift].
    induction IH as [|e es He _ IHes]; [apply mono_ret|].
    apply mono_bind; [done|]. intros p.
    apply mono_bind; [done|]. intros ps. apply mono_ret.
Qed.

Lemma mono_pushLift s this fu f futures delivered dependencies :
  heap s !! this = Some (OFuture fu) →
  final (pushLift push this fu f futures delivered dependencies s)
        (evolves s).
Proof.
  intros Hfu. unfold pushLift. apply final_then.
  - eapply evolves_setFuture; [done|]. by simpl.
  - done.
  - intros s1 H1. eapply final_impl; [intros ?; by apply evolves_trans|].
    destruct (S delivered =? dependencies); [|apply mono_ret].
    apply mono_bind.
    + apply mono_for_loop. intros i.
      apply mono_bind; [apply mono_lift_slots|]. intros xs.
      destruct (xs !! i); [|apply mono_throw].
      apply mono_bind; [apply mono_slot_value|]. intros v.
      by apply (mono_update this (with_cls _)).
    + intros _. apply mono_bind; [apply mono_lift_slots|]. intros xs.
      by apply mono_resolve.
Qed.

Lemma mono_pushChain s this fu f parent parentOccurred v :
  heap s !! this = Some (OFuture fu) →
  final (pushChain push this fu f parent parentOccurred v s) (evolves s).
Proof.
  intros Hfu. unfold pushChain. destruct parentOccurred; simpl.
  - by apply mono_resolve.
  - apply final_then.
    + eapply evolves_setFuture; [done|]. by simpl.
    + done.
    + intros s1 H1. eapply final_impl; [intros ?; by apply evolves_trans|].
      apply mono_bind; [apply mono_build|]. intros q. by apply mono_listen.
Qed.

Lemma mono_push_method o v : mono (push_method push o v).
Proof.
  intros s. unfold push_method. apply final_bind. unfold getObj.
  destruct (heap s !! o) as [[fu|f p]|] eqn:Ho; simpl;
    [|apply mono_emit|apply evolves_refl].
  destruct (cls fu) eqn:Hc.
  - by apply mono_resolve.
  - by apply mono_resolve.
  - apply evolves_refl.
  - by apply mono_pushLift.
  - by apply mono_pushChain.
  - apply evolves_refl.
  - apply mono_bind; [apply mono_removeListener|]. intros _.
    by apply mono_resolve.
Qed.
End MonoClasses.

(** Whatever a push does, however deep, the state only moves forward. *)
Lemma mono_push n o v : mono (push n o v).
Proof.
  revert o v. induction n as [|n IH]; intros o v.
  - intros s. exact I.
  - simpl. by apply mono_push_method.
Qed.

(** ** Resolution delivers to the registered listeners *)

Lemma getFuture_ok r fu s :
  heap s !! r = Some (OFuture fu) → getFuture r s = Ok fu s.
Proof. intros Hr. unfold getFuture, getObj, mbind, M_bind. by rewrite Hr. Qed.

Lemma setFuture_puts r fu s : setFuture r fu s = Ok () (put r fu s).
Proof. done. Qed.

Lemma bind_ok {A B} (m : M A) (k : A → M B) s a s' :
  m s = Ok a s' → (m ≫= k) s = k a s'.
Proof. intros Hm. unfold mbind, M_bind. by rewrite Hm. Qed.

Lemma settled_lookup this v fu s :
  heap s !! this = Some (OFuture fu) →
  heap (settled this v fu s) !! this = Some (OFuture (with_value v fu)).
Proof.
  intros Hr. simpl. apply list_lookup_insert_eq. by eapply lookup_lt_Some.
Qed.

Section Delivery.
Variable push : ref → val → M unit.
Hypothesis mono_push : ∀ o v, mono (push o v).

(** The loop of [resolve] reads the live array of an occurred future; no
    nested call can change that array, so the loop visits the listeners
    that were registered when it started. *)
Lemma loop_delivers this v rest : ∀ pre s fu,
  heap s !! this = Some (OFuture fu) →
  occurred fu = true →
  listeners fu = pre ++ rest →
  for_loop (length rest) (length pre) (λ i,
    fu' ← getFuture this;
    match listeners fu' !! i with
    | Some o => push o v
    | None => throw TypeError
    end) s
  = deliver push rest v s.
Proof.
  induction rest as [|o rest IH]; intros pre s fu Hfu Hocc Hls; [done|].
  cbn [for_loop deliver length]. unfold mbind at 1, M_bind at 1.
  rewrite (bind_ok _ _ _ _ _ (getFuture_ok _ _ _ Hfu)).
  rewrite Hls, list_lookup_middle by done.
  unfold mbind at 2, M_bind at 2.
  pose proof (mono_push o v s) as Hev.
  destruct (push o v s) as [[] s1|e s1|]; simpl in Hev; [|done..].
  destruct (evolves_fut _ _ Hev _ _ Hfu) as (fu1 & Hfu1 & Hk).
  destruct (Hk Hocc) as [Hocc1 Hls1].
  replace (S (length pre)) with (length (pre ++ [o]))
    by (rewrite length_app; simpl; lia).
  apply (IH _ _ fu1); [done..|].
  by rewrite Hls1, Hls, <- app_assoc.
Qed.

Lemma resolve_settles_delivers this v s fu :
  heap s !! this = Some (OFuture fu) →
  resolve push this v s
  = deliver push (listeners fu) v (settled this v fu s).
Proof.
  intros Hfu. unfold resolve.
  rewrite (bind_ok _ _ _ _ _ (getFuture_ok _ _ _ Hfu)).
  unfold mbind at 1 2, M_bind at 1 2. simpl.
  apply (loop_delivers this v (listeners fu) [] _ (with_value v fu));
    [|done..].
  by apply (settled_lookup this v fu s).
Qed.
End Delivery.

(** On a pending future, each [listen] appends its consumer. *)
Lemma listen_each_appends p this cs : ∀ s fu,
  heap s !! this = Some (OFuture fu) →
  occurred fu = false →
  listen_each p this cs s
  = Ok () (put this (with_listeners (listeners fu ++ cs) fu) s).
Proof.
  induction cs as [|c cs IH]; intros s fu Hfu Hocc.
  - simpl. unfold put. rewrite app_nil_r.
    replace (with_listeners (listeners fu) fu) with fu by (by destruct fu).
    rewrite list_insert_id by done. by destruct s.
  - simpl. unfold listen at 1.
    erewrite bind_ok; cycle 1.
    { rewrite (bind_ok _ _ _ _ _ (getFuture_ok _ _ _ Hfu)). rewrite Hocc.
      apply setFuture_puts. }
    rewrite (IH _ (with_listeners (listeners fu ++ [c]) fu)); [|..|done].
    2:{ simpl. apply list_lookup_insert_eq. by eapply lookup_lt_Some. }
    unfold put, with_listeners. simpl.
    by rewrite list_insert_insert_eq, <- app_assoc.
Qed.

(** C2. For every pending future [F], every sequence [cs] of consumers
    registered on [F] by [listen], one after the other, and every value
    [v]: the consumers are appended to the listeners of [F] in that order,
    and [F.resolve(v)] sets the flag, stores [v], and then is exactly the
    delivery of one [push(v)] to each listener of [F], in registration
    order.  (A push that raises ends the call there, as every exception
    does.) *)
Theorem resolve_delivers_in_order n s F fu cs v :
  heap s !! F = Some (OFuture fu) →
  occurred fu = false →
  let registered := with_listeners (listeners fu ++ cs) fu in
  let s1 := put F registered s in
  (∀ p, listen_each p F cs s = Ok () s1) ∧
  resolve (push n) F v s1
  = deliver (push n) (listeners fu ++ cs) v (settled F v registered s1).
Proof.
  intros Hfu Hocc registered s1. split.
  - intros p. by apply listen_each_appends.
  - apply (resolve_settles_delivers _ (mono_push n) F v s1 registered).
    simpl. apply list_lookup_insert_eq. by eapply lookup_lt_Some.
Qed.

Lemma resolve_delivers_witness :
  let s := MkState [OFuture (MkFuture false VUndefined [] FutureSink);
                    OSubscription 7 0; OSubscription 8 0] [] [] in
  let registered := MkFuture false VUndefined [1; 2] FutureSink in
  (∀ p, listen_each p 0 [1; 2] s = Ok () (put 0 registered s)) ∧
  resolve (push 1) 0 (VNum 5) (put 0 registered s)
  = deliver (push 1) [1; 2] (VNum 5)
      (settled 0 (VNum 5) registered (put 0 registered s)).
Proof.
  intros s registered.
  apply (resolve_delivers_in_order 1 s 0
           (MkFuture false VUndefined [] FutureSink) [1; 2] (VNum 5));
    reflexivity.
Defined.

(** C3. For every future [F] that has occurred with stored value [v] and
    every consumer [c]: [F.listen(c)] is the call [c.push(v)], made at once;
    in the state it ends in, [F] has the listeners it had before. *)
Theorem listen_occurred_pushes n s F fu c :
  heap s !! F = Some (OFuture fu) →
  occurred fu = true →
  listen (push n) F c s = push n c (value fu) s ∧
  final (listen (push n) F c s) (λ s',
    ∃ fu', heap s' !! F = Some (OFuture fu') ∧
           listeners fu' = listeners fu).
Proof.
  intros Hfu Hocc.
  assert (listen (push n) F c s = push n c (value fu) s) as Heq.
  { unfold listen. rewrite (bind_ok _ _ _ _ _ (getFuture_ok _ _ _ Hfu)).
    by rewrite Hocc. }
  split; [done|]. rewrite Heq.
  eapply final_impl; [|apply mono_push].
  intros s' Hev. destruct (evolves_fut _ _ Hev _ _ Hfu) as (fu' & Hfu' & Hk).
  exists fu'. split; [done|]. by apply Hk.
Qed.

Lemma listen_occurred_witness :
  let s := MkState [OFuture (MkFuture true (VNum 3) [] PureFuture);
                    OSubscription 7 0] [] [] in
  listen (push 1) 0 1 s = push 1 1 (VNum 3) s ∧
  final (listen (push 1) 0 1 s) (λ s',
    ∃ fu', heap s' !! 0 = Some (OFuture fu') ∧ listeners fu' = []).
Proof.
  apply (listen_occurred_pushes 1 _ 0 (MkFuture true (VNum 3) [] PureFuture) 1);
    reflexivity.
Defined.

(** ** Resolving twice *)

(** C1 fails on the code: [resolve] has no guard.  On a sink that has
    occurred with 1, [resolve(2)] returns normally, overwrites the stored
    value with 2 and calls the subscribed callback a second time. *)
Lemma second_resolve_goes_through :
  ∃ s1 s2,
    resolved_once empty_state = Ok 0 s1 ∧
    heap s1 !! 0 = Some (OFuture (MkFuture true (VNum 1) [1] FutureSink)) ∧
    log s1 = [Resolved 0 (VNum 1); Called 7 (VNum 1)] ∧
    resolve (push 1) 0 (VNum 2) s1 = Ok () s2 ∧
    heap s2 !! 0 = Some (OFuture (MkFuture true (VNum 2) [1] FutureSink)) ∧
    log s2 = log s1 ++ [Resolved 0 (VNum 2); Called 7 (VNum 2)].
Proof.
  do 2 eexists. split; [vm_compute; reflexivity|].
  repeat split; vm_compute; reflexivity.
Qed.

(** C1, amended.  For every future [F] that has already occurred and every
    value [w]: [F.resolve(w)] is not rejected; it overwrites the stored
    value with [w] and delivers [push(w)] to each registered listener again,
    in registration order, as a first resolution does. *)
Theorem resolve_again_overwrites_and_renotifies n s F fu w :
  heap s !! F = Some (OFuture fu) →
  occurred fu = true →
  heap (settled F w fu s) !! F
    = Some (OFuture (MkFuture true w (listeners fu) (cls fu))) ∧
  resolve (push n) F w s
  = deliver (push n) (listeners fu) w (settled F w fu s).
Proof.
  intros Hfu _. split.
  - by apply (settled_lookup F w fu s).
  - apply resolve_settles_delivers; [apply mono_push|done].
Qed.

Lemma resolve_again_witness :
  ∃ s1, resolved_once empty_state = Ok 0 s1 ∧
    resolve (push 1) 0 (VNum 2) s1
    = deliver (push 1) [1] (VNum 2)
        (settled 0 (VNum 2) (MkFuture true (VNum 1) [1] FutureSink) s1).
Proof.
  eexists. split; [vm_compute; reflexivity|].
  apply (resolve_again_overwrites_and_renotifies 1 _ 0
           (MkFuture true (VNum 1) [1] FutureSink) (VNum 2));
    reflexivity.
Defined.

(** ** Contract violations *)

(** C8. A push to a [PureFuture], a push to a [FutureSink] and
    [changeStateDown] on a [BehaviorFuture] each raise at once, leave the
    state as it was, and raise three different errors. *)
Theorem forbidden_calls_throw n s r fu v :
  heap s !! r = Some (OFuture fu) →
  (cls fu = PureFuture → push (S n) r v s = Throw PureError s) ∧
  (cls fu = FutureSink → push (S n) r v s = Throw SinkError s) ∧
  changeStateDown r s = Throw DownError s ∧
  PureError ≠ SinkError ∧ PureError ≠ DownError ∧ SinkError ≠ DownError.
Proof.
  intros Hr. repeat split; try discriminate.
  - intros Hc. simpl. unfold push_method, getObj, mbind, M_bind.
    by rewrite Hr, Hc.
  - intros Hc. simpl. unfold push_method, getObj, mbind, M_bind.
    by rewrite Hr, Hc.
Qed.

Lemma forbidden_calls_witness :
  let s := MkState [OFuture (MkFuture true (VNum 3) [] PureFuture)] [] [] in
  push 1 0 (VNum 4) s = Throw PureError s.
Proof.
  intros s.
  apply (forbidden_calls_throw 0 s 0 (MkFuture true (VNum 3) [] PureFuture)
           (VNum 4)); reflexivity.
Defined.

(** ** The behavior adapter *)

(** C9. A push to a [BehaviorFuture] first calls [removeListener] on its
    behavior and then [resolve] with the pushed value: the call of [resolve]
    starts in a state where the adapter is no longer an observer of the
    behavior, the log shows the removal right before the resolution, and in
    the state the push ends in the adapter is still not an observer. *)
Theorem behavior_push_deregisters_first n s this fu b obs a :
  heap s !! this = Some (OFuture fu) →
  cls fu = BehaviorFuture b →
  behaviors s !! b = Some obs →
  let s1 := MkState (heap s) (<[b := filter (λ x, x ≠ this) obs]> (behaviors s))
                    (log s ++ [Removed b this]) in
  removeListener b this s = Ok () s1 ∧
  push (S n) this a s = resolve (push n) this a s1 ∧
  (∀ obs1, behaviors s1 !! b = Some obs1 → this ∉ obs1) ∧
  final (push (S n) this a s) (λ s',
    (∃ rest, log s' = log s ++ Removed b this :: Resolved this a :: rest) ∧
    ∀ obs', behaviors s' !! b = Some obs' → this ∉ obs').
Proof.
  intros Hfu Hc Hb s1.
  assert (removeListener b this s = Ok () s1) as Hrm.
  { unfold removeListener. by rewrite Hb. }
  assert (push (S n) this a s = resolve (push n) this a s1) as Hpush.
  { simpl. unfold push_method at 1, getObj.
    unfold mbind at 1, M_bind at 1. rewrite Hfu, Hc.
    by rewrite (bind_ok _ _ _ _ _ Hrm). }
  assert (∀ obs1, behaviors s1 !! b = Some obs1 → this ∉ obs1) as Hout.
  { intros obs1. simpl.
    rewrite list_lookup_insert_eq by (by eapply lookup_lt_Some).
    intros [= <-]. rewrite list_elem_of_filter. tauto. }
  repeat split; [done..|]. rewrite Hpush.
  rewrite (resolve_settles_delivers _ (mono_push n) this a s1 fu Hfu).
  assert (mono (deliver (push n) (listeners fu) a)) as Hd.
  { induction (listeners fu) as [|o ls IH]; [apply mono_ret|].
    apply mono_bind; [apply mono_push|done]. }
  eapply final_impl; [|apply Hd].
  intros s' [_ _ Hobs [rest Hlog]]. split.
  - exists rest. rewrite Hlog. simpl. by rewrite <- !app_assoc.
  - intros obs' Hobs'.
    destruct (Hobs b (filter (λ x, x ≠ this) obs)) as (obs2 & H2 & Hsub).
    { simpl. apply list_lookup_insert_eq. by eapply lookup_lt_Some. }
    replace obs' with obs2 by congruence.
    intros Hin. apply Hsub in Hin. apply list_elem_of_filter in Hin. tauto.
Qed.

Lemma behavior_push_witness :
  let s := MkState [OFuture (MkFuture false VUndefined [] (BehaviorFuture 0))]
                   [[0]] [] in
  push 1 0 (VNum 9) s
  = resolve (push 0) 0 (VNum 9)
      (MkState (heap s) [[]] [Removed 0 0]).
Proof.
  intros s.
  apply (behavior_push_deregisters_first 0 s 0
           (MkFuture false VUndefined [] (BehaviorFuture 0)) 0 [0] (VNum 9));
    reflexivity.
Defined.

(** ** Stepping through a scenario

    What a lookup sees after each of the three ways a method changes the
    state. *)
Lemma length_put r fu s : length (heap (put r fu s)) = length (heap s).
Proof. apply length_insert. Qed.
Lemma length_grow o s : length (heap (grow o s)) = S (length (heap s)).
Proof. simpl. rewrite length_app. simpl. lia. Qed.
Lemma length_logged e s : length (heap (logged e s)) = length (heap s).
Proof. done. Qed.

Lemma lookup_put_eq r r' fu s :
  r' = r → r < length (heap s) → heap (put r fu s) !! r' = Some (OFuture fu).
Proof. intros -> Hr. by apply list_lookup_insert_eq. Qed.
Lemma lookup_put_ne r r' fu s :
  r' ≠ r → heap (put r fu s) !! r' = heap s !! r'.
Proof. intros Hr. by apply list_lookup_insert_ne. Qed.
Lemma lookup_grow_eq r o s :
  r = length (heap s) → heap (grow o s) !! r = Some o.
Proof. intros ->. simpl. by rewrite list_lookup_middle. Qed.
Lemma lookup_grow_lt r o s :
  r < length (heap s) → heap (grow o s) !! r = heap s !! r.
Proof. intros Hr. simpl. by rewrite lookup_app_l. Qed.
Lemma lookup_logged r e s : heap (logged e s) !! r = heap s !! r.
Proof. done. Qed.

Lemma log_put r fu s : log (put r fu s) = log s.
Proof. done. Qed.
Lemma log_grow o s : log (grow o s) = log s.
Proof. done. Qed.
Lemma log_logged e s : log (logged e s) = log s ++ [e].
Proof. done. Qed.

#[global] Opaque put grow logged.

Ltac heap_lengths :=
  repeat first
    [ rewrite length_put | rewrite length_grow | rewrite length_logged ].

Ltac heap_len := heap_lengths; lia.

Ltac heap_simpl :=
  cbn [listeners occurred value cls with_listeners with_value with_cls app];
  heap_lengths;
  repeat first
    [ rewrite lookup_logged
    | rewrite lookup_put_eq by heap_len
    | rewrite lookup_put_ne by heap_len
    | rewrite lookup_grow_eq by heap_len
    | rewrite lookup_grow_lt by heap_len
    | rewrite log_put | rewrite log_grow | rewrite log_logged ].

Ltac heap_solve := heap_simpl; first [reflexivity | eassumption].

(** The methods on a state whose relevant objects are known. *)
Lemma fresh_grows v occ k s :
  fresh v occ k s
  = Ok (length (heap s)) (grow (OFuture (MkFuture occ v [] k)) s).
Proof. done. Qed.

Lemma alloc_grows o s : alloc o s = Ok (length (heap s)) (grow o s).
Proof. done. Qed.

Lemma getObj_ok r o s : heap s !! r = Some o → getObj r s = Ok o s.
Proof. intros Hr. unfold getObj. by rewrite Hr. Qed.

Lemma emit_logs e s : emit e s = Ok () (logged e s).
Proof. done. Qed.

Lemma settled_put_logged this v fu s :
  settled this v fu s = logged (Resolved this v) (put this (with_value v fu) s).
Proof. done. Qed.

Section Steps.
Variable push : ref → val → M unit.

Lemma listen_pending this o s fu :
  heap s !! this = Some (OFuture fu) →
  occurred fu = false →
  listen push this o s
  = Ok () (put this (with_listeners (listeners fu ++ [o]) fu) s).
Proof.
  intros Hfu Hocc. unfold listen.
  rewrite (bind_ok _ _ _ _ _ (getFuture_ok _ _ _ Hfu)). by rewrite Hocc.
Qed.

Lemma listen_late this o s fu :
  heap s !! this = Some (OFuture fu) →
  occurred fu = true →
  listen push this o s = push o (value fu) s.
Proof.
  intros Hfu Hocc. unfold listen.
  rewrite (bind_ok _ _ _ _ _ (getFuture_ok _ _ _ Hfu)). by rewrite Hocc.
Qed.

(** A constructor that allocates [o] and then listens to [parent]. *)
Lemma construct_pending o parent s fu :
  heap s !! parent = Some (OFuture fu) →
  occurred fu = false →
  (this ← alloc o; listen push parent this;; mret this) s
  = Ok (length (heap s))
       (put parent (with_listeners (listeners fu ++ [length (heap s)]) fu)
            (grow o s)).
Proof.
  intros Hfu Hocc. rewrite (bind_ok _ _ _ _ _ (alloc_grows o s)).
  erewrite bind_ok; [reflexivity|].
  apply listen_pending; [|done].
  rewrite lookup_grow_lt; [done|]. by eapply lookup_lt_Some.
Qed.

Lemma construct_late o parent s fu :
  heap s !! parent = Some (OFuture fu) →
  occurred fu = true →
  (this ← alloc o; listen push parent this;; mret this) s
  = (push (length (heap s)) (value fu);; mret (length (heap s)))
      (grow o s).
Proof.
  intros Hfu Hocc. rewrite (bind_ok _ _ _ _ _ (alloc_grows o s)).
  unfold mbind, M_bind.
  erewrite listen_late; [done| |done].
  rewrite lookup_grow_lt; [done|]. by eapply lookup_lt_Some.
Qed.
End Steps.

Lemma push_subscription n o f p v s :
  heap s !! o = Some (OSubscription f p) →
  push (S n) o v s = Ok () (logged (Called f v) s).
Proof.
  intros Ho. simpl. unfold push_method.
  by rewrite (bind_ok _ _ _ _ _ (getObj_ok _ _ _ Ho)).
Qed.

Lemma push_map n o fu f parent v s :
  heap s !! o = Some (OFuture fu) →
  cls fu = MapFuture f parent →
  push (S n) o v s = resolve (push n) o (f v) s.
Proof.
  intros Ho Hc. simpl. unfold push_method.
  rewrite (bind_ok _ _ _ _ _ (getObj_ok _ _ _ Ho)). by rewrite Hc.
Qed.

(** [resolve] on a future whose listeners are known, one listener at a
    time. *)
Lemma resolve_no_listener n this v s fu :
  heap s !! this = Some (OFuture fu) →
  listeners fu = [] →
  resolve (push n) this v s = Ok () (settled this v fu s).
Proof.
  intros Hfu Hls.
  rewrite (resolve_settles_delivers _ (mono_push n) _ _ _ _ Hfu).
  by rewrite Hls.
Qed.

Lemma resolve_one_listener n this v s fu o :
  heap s !! this = Some (OFuture fu) →
  listeners fu = [o] →
  resolve (push n) this v s
  = match push n o v (settled this v fu s) with
    | Ok _ s' => Ok () s'
    | Throw e s' => Throw e s'
    | OutOfFuel => OutOfFuel
    end.
Proof.
  intros Hfu Hls.
  rewrite (resolve_settles_delivers _ (mono_push n) _ _ _ _ Hfu).
  rewrite Hls. simpl. unfold mbind, M_bind.
  by destruct (push n o v _) as [[] ?| |].
Qed.

(** ** The scenario of a sink, a map and a subscription *)

(** C7. In any state: after [sink = sinkFuture()],
    [mapped = sink.map(x => x * 2)] and [mapped.subscribe(print)], nothing
    has been printed; the call [sink.resolve(21)] returns normally and,
    within that call, [sink] is resolved with 21, [mapped] with 42, and
    [print] is called exactly once, with 42. *)
Theorem sink_map_subscribe_prints_once s p p' n print :
  let sink := length (heap s) in
  let mapped := S sink in
  ∃ s1 s2,
    (a ← sinkFuture; m ← map p times2 a; subscribe p' print m;; mret (a, m)) s
      = Ok (sink, mapped) s1 ∧
    log s1 = log s ∧
    resolve (push (S (S n))) sink (VNum 21) s1 = Ok () s2 ∧
    log s2 = log s ++ [Resolved sink (VNum 21); Resolved mapped (VNum 42);
                       Called print (VNum 42)].
Proof.
  intros sink mapped.
  eexists _, _. split; [|split; [|split]].
  - unfold sinkFuture, newFutureSink.
    erewrite bind_ok by apply fresh_grows.
    erewrite bind_ok by (eapply construct_pending; [heap_solve|reflexivity]).
    unfold subscribe.
    erewrite bind_ok; cycle 1.
    { erewrite bind_ok; [reflexivity|].
      eapply construct_pending; [heap_solve|reflexivity]. }
    heap_simpl. reflexivity.
  - heap_simpl. reflexivity.
  - erewrite resolve_one_listener; [|heap_solve|reflexivity].
    rewrite settled_put_logged.
    erewrite push_map; [|heap_solve|reflexivity].
    erewrite resolve_one_listener; [|heap_solve|reflexivity].
    rewrite settled_put_logged.
    erewrite push_subscription; [reflexivity|heap_solve].
  - heap_simpl. subst sink mapped. by rewrite <- !app_assoc.
Qed.

(** ** Map futures *)

(** A pending future gets a new map future as its last listener. *)
Lemma map_pending p g F s fu :
  heap s !! F = Some (OFuture fu) →
  occurred fu = false →
  map p g F s
  = Ok (length (heap s))
       (put F (with_listeners (listeners fu ++ [length (heap s)]) fu)
            (grow (OFuture (MkFuture false VUndefined [] (MapFuture g F))) s)).
Proof. intros Hfu Hocc. by apply construct_pending. Qed.

(** A future that has occurred resolves a new map future on the spot. *)
Lemma map_late n g F s fu :
  heap s !! F = Some (OFuture fu) →
  occurred fu = true →
  map (push (S n)) g F s
  = Ok (length (heap s))
       (settled (length (heap s)) (g (value fu))
          (MkFuture false VUndefined [] (MapFuture g F))
          (grow (OFuture (MkFuture false VUndefined [] (MapFuture g F))) s)).
Proof.
  intros Hfu Hocc. unfold map, newMapFuture, fresh.
  erewrite construct_late by done.
  erewrite bind_ok; [reflexivity|].
  erewrite push_map; [|heap_solve|reflexivity].
  erewrite resolve_no_listener; [|heap_solve|reflexivity].
  by heap_lengths.
Qed.

(** A pending map future without listeners, pushed to in any state. *)
Lemma push_map_alone n M g P v0 v t :
  heap t !! M = Some (OFuture (MkFuture false v0 [] (MapFuture g P))) →
  ∃ t', push (S n) M v t = Ok () t' ∧
        heap t' !! M
        = Some (OFuture (MkFuture true (g v) [] (MapFuture g P))) ∧
        log t' = log t ++ [Resolved M (g v)].
Proof.
  intros HM. pose proof (lookup_lt_Some _ _ _ HM) as Hlt.
  eexists. split; [|split].
  - erewrite push_map; [|done|reflexivity].
    erewrite resolve_no_listener; [reflexivity|done|reflexivity].
  - rewrite settled_put_logged. heap_solve.
  - rewrite settled_put_logged. by heap_simpl.
Qed.

(** A pending map future whose only listener is a pending map future
    without listeners, pushed to in any state. *)
Lemma push_map_map n M1 M2 P f g v t :
  M1 ≠ M2 →
  heap t !! M1 = Some (OFuture (MkFuture false VUndefined [M2] (MapFuture f P))) →
  heap t !! M2 = Some (OFuture (MkFuture false VUndefined [] (MapFuture g M1))) →
  ∃ t', push (S (S n)) M1 v t = Ok () t' ∧
        heap t' !! M1
        = Some (OFuture (MkFuture true (f v) [M2] (MapFuture f P))) ∧
        heap t' !! M2
        = Some (OFuture (MkFuture true (g (f v)) [] (MapFuture g M1))) ∧
        log t' = log t ++ [Resolved M1 (f v); Resolved M2 (g (f v))].
Proof.
  intros Hne H1 H2.
  pose proof (lookup_lt_Some _ _ _ H1) as Hlt1.
  pose proof (lookup_lt_Some _ _ _ H2) as Hlt2.
  eexists. split; [|split; [|split]].
  - erewrite push_map; [|done|reflexivity].
    erewrite resolve_one_listener; [|done|reflexivity].
    rewrite settled_put_logged.
    erewrite push_map; [|heap_solve|reflexivity].
    erewrite resolve_no_listener; [reflexivity|heap_solve|reflexivity].
  - rewrite !settled_put_logged. heap_solve.
  - rewrite !settled_put_logged. heap_solve.
  - rewrite !settled_put_logged. heap_simpl. by rewrite <- !app_assoc.
Qed.

(** C10. For every function [f] of declared length 1 and every future [m]:
    [lift(f, m, ...)] is [m.map(f)], a [MapFuture] over the first future
    argument.  If [m] has occurred the result occurs on construction, with
    [f] of the value of [m].  If [m] is pending, the result is pending, it
    is the last listener of [m], and a push of [v] to it, in whatever state
    [m] delivers it, makes it occur with [f(v)]; when [m] has no other
    listener, that happens within [m.resolve(v)].  With any other declared
    length, [lift] constructs a [LiftFuture]. *)
Theorem lift_unary_is_map n f m rest s fu :
  fn_length f = 1 →
  heap s !! m = Some (OFuture fu) →
  let g := λ v, fn_apply f [v] in
  let r := length (heap s) in
  let lifted occ v := Some (OFuture (MkFuture occ v [] (MapFuture g m))) in
  (∀ p, lift p f (m :: rest) s = map p g m s) ∧
  (occurred fu = true →
   ∃ s', lift (push (S n)) f (m :: rest) s = Ok r s' ∧
         heap s' !! r = lifted true (g (value fu))) ∧
  (occurred fu = false →
   ∃ s', (∀ p, lift p f (m :: rest) s = Ok r s') ∧
         heap s' !! m
         = Some (OFuture (with_listeners (listeners fu ++ [r]) fu)) ∧
         heap s' !! r = lifted false VUndefined ∧
         (∀ v t, heap t !! r = lifted false VUndefined →
            ∃ t', push (S n) r v t = Ok () t' ∧
                  heap t' !! r = lifted true (g v)) ∧
         (listeners fu = [] →
          ∀ v, ∃ s'', resolve (push (S n)) m v s' = Ok () s'' ∧
                      heap s'' !! r = lifted true (g v))) ∧
  (∀ p f' args, fn_length f' ≠ 1 → lift p f' args = newLiftFuture p f' args).
Proof.
  intros Hlen Hfu g r lifted.
  assert (∀ p, lift p f (m :: rest) s = map p g m s) as Hmap.
  { intros p. unfold lift. by rewrite Hlen. }
  pose proof (lookup_lt_Some _ _ _ Hfu) as Hlt.
  split; [done|]. split; [|split].
  - intros Hocc. eexists. rewrite Hmap. split; [by apply map_late|].
    rewrite settled_put_logged. heap_solve.
  - intros Hocc. eexists. split; [|split; [|split; [|split]]].
    + intros p. rewrite Hmap. by apply map_pending.
    + heap_solve.
    + heap_solve.
    + intros v t Ht.
      destruct (push_map_alone n r g m VUndefined v t Ht) as (t' & ? & ? & _).
      eauto.
    + intros Hls v. eexists. split.
      * erewrite resolve_one_listener; [|heap_solve|by rewrite Hls].
        rewrite settled_put_logged.
        erewrite push_map; [|heap_solve|reflexivity].
        erewrite resolve_no_listener; [reflexivity|heap_solve|reflexivity].
      * rewrite settled_put_logged. heap_solve.
  - intros p f' args Hne. unfold lift.
    by destruct (Nat.eqb_spec (fn_length f') 1).
Qed.

Lemma lift_unary_witness :
  let s := MkState [OFuture (MkFuture true (VNum 20) [] PureFuture)] [] [] in
  ∃ s', lift (push 1) (JsFun 1 (λ xs, times2 (default VUndefined (head xs))))
             [0] s = Ok 1 s' ∧
        heap s' !! 1
        = Some (OFuture (MkFuture true (VNum 40) []
                  (MapFuture (λ v, times2 (default VUndefined (head [v]))) 0))).
Proof.
  intros s.
  apply (lift_unary_is_map 0
           (JsFun 1 (λ xs, times2 (default VUndefined (head xs)))) 0 [] s
           (MkFuture true (VNum 20) [] PureFuture)); reflexivity.
Defined.

(** C6. For every future [F] and functions [f], [g]: [F.map(f).map(g)] and
    [F.map(x => g(f(x)))] occur together and with the same value.  If [F]
    has occurred, both occur on construction with [g(f(value))].  If [F] is
    pending, both are pending after construction; the first map of the one
    and the single map of the other are the last listener of [F]; a push of
    [v] to that listener, in whatever state [F] delivers it, makes
    [F.map(f).map(g)], respectively [F.map(x => g(f(x)))], occur within that
    push with value [g(f(v))].  When [F] has no other listener, both occur
    within the call [F.resolve(v)]. *)
Theorem map_map_is_map_compose n s F fu f g :
  heap s !! F = Some (OFuture fu) →
  let two p := a ← map p f F; map p g a in
  let one p := map p (g ∘ f) F in
  let M1 := length (heap s) in
  let M2 := S M1 in
  let N := length (heap s) in
  let first occ v := Some (OFuture (MkFuture occ v [M2] (MapFuture f F))) in
  let second occ v := Some (OFuture (MkFuture occ v [] (MapFuture g M1))) in
  let fused occ v := Some (OFuture (MkFuture occ v [] (MapFuture (g ∘ f) F))) in
  (occurred fu = true →
   ∃ sA sB,
     two (push (S n)) s = Ok M2 sA ∧ one (push (S n)) s = Ok N sB ∧
     heap sA !! M2 = second true (g (f (value fu))) ∧
     heap sB !! N = fused true (g (f (value fu)))) ∧
  (occurred fu = false →
   ∃ sA sB,
     (∀ p, two p s = Ok M2 sA) ∧ (∀ p, one p s = Ok N sB) ∧
     heap sA !! F = Some (OFuture (with_listeners (listeners fu ++ [M1]) fu)) ∧
     heap sB !! F = Some (OFuture (with_listeners (listeners fu ++ [N]) fu)) ∧
     heap sA !! M1 = first false VUndefined ∧
     heap sA !! M2 = second false VUndefined ∧
     heap sB !! N = fused false VUndefined ∧
     (∀ v tA,
        heap tA !! M1 = first false VUndefined →
        heap tA !! M2 = second false VUndefined →
        ∃ tA', push (S (S n)) M1 v tA = Ok () tA' ∧
               heap tA' !! M2 = second true (g (f v)) ∧
               log tA' = log tA ++ [Resolved M1 (f v);
                                    Resolved M2 (g (f v))]) ∧
     (∀ v tB,
        heap tB !! N = fused false VUndefined →
        ∃ tB', push (S (S n)) N v tB = Ok () tB' ∧
               heap tB' !! N = fused true (g (f v)) ∧
               log tB' = log tB ++ [Resolved N (g (f v))]) ∧
     (listeners fu = [] →
      ∀ v, ∃ sA' sB',
        resolve (push (S (S n))) F v sA = Ok () sA' ∧
        resolve (push (S (S n))) F v sB = Ok () sB' ∧
        heap sA' !! M2 = second true (g (f v)) ∧
        heap sB' !! N = fused true (g (f v)) ∧
        log sA' = log s ++ [Resolved F v; Resolved M1 (f v);
                            Resolved M2 (g (f v))] ∧
        log sB' = log s ++ [Resolved F v; Resolved N (g (f v))])).
Proof.
  intros Hfu two one M1 M2 N first second fused.
  pose proof (lookup_lt_Some _ _ _ Hfu) as Hlt.
  split.
  - intros Hocc. eexists _, _. split; [|split; [|split]].
    + unfold two. erewrite bind_ok by (by apply map_late).
      rewrite settled_put_logged.
      erewrite map_late; [|heap_solve|reflexivity].
      heap_simpl. reflexivity.
    + unfold one. by apply map_late.
    + rewrite !settled_put_logged. heap_solve.
    + rewrite !settled_put_logged. heap_solve.
  - intros Hocc. eexists _, _.
    split; [|split; [|split; [|split; [|split; [|split; [|split;
      [|split; [|split]]]]]]]].
    + intros p. unfold two. erewrite bind_ok by (by apply map_pending).
      erewrite map_pending; [|heap_solve|reflexivity].
      heap_simpl. reflexivity.
    + intros p. unfold one. by apply map_pending.
    + heap_solve.
    + heap_solve.
    + heap_solve.
    + heap_solve.
    + heap_solve.
    + intros v tA H1 H2.
      destruct (push_map_map n M1 M2 F f g v tA) as (tA' & ? & _ & ? & ?);
        [unfold M2; lia|done..|eauto].
    + intros v tB HN.
      destruct (push_map_alone (S n) N (g ∘ f) F VUndefined v tB HN)
        as (tB' & ? & ? & ?).
      eauto.
    + intros Hls v. eexists _, _. split; [|split; [|split; [|split; [|split]]]].
      * erewrite resolve_one_listener; [|heap_solve|by rewrite Hls].
        rewrite settled_put_logged.
        erewrite push_map; [|heap_solve|reflexivity].
        erewrite resolve_one_listener; [|heap_solve|reflexivity].
        rewrite settled_put_logged.
        erewrite push_map; [|heap_solve|reflexivity].
        erewrite resolve_no_listener; [reflexivity|heap_solve|reflexivity].
      * erewrite resolve_one_listener; [|heap_solve|by rewrite Hls].
        rewrite settled_put_logged.
        erewrite push_map; [|heap_solve|reflexivity].
        erewrite resolve_no_listener; [reflexivity|heap_solve|reflexivity].
      * rewrite !settled_put_logged. heap_solve.
      * rewrite !settled_put_logged. heap_solve.
      * rewrite !settled_put_logged. heap_simpl. by rewrite <- !app_assoc.
      * rewrite !settled_put_logged. heap_simpl. by rewrite <- !app_assoc.
Qed.

Lemma map_map_witness :
  let s := MkState [OFuture (MkFuture false VUndefined [] FutureSink)] [] [] in
  ∃ sA sB,
    (∀ p, (a ← map p times2 0; map p times2 a) s = Ok 2 sA) ∧
    (∀ p, map p (times2 ∘ times2) 0 s = Ok 1 sB) ∧
    ∃ sA' sB',
      resolve (push 2) 0 (VNum 5) sA = Ok () sA' ∧
      resolve (push 2) 0 (VNum 5) sB = Ok () sB' ∧
      heap sA' !! 2
      = Some (OFuture (MkFuture true (VNum 20) [] (MapFuture times2 1))) ∧
      heap sB' !! 1
      = Some (OFuture (MkFuture true (VNum 20) []
                (MapFuture (times2 ∘ times2) 0))).
Proof.
  intros s.
  destruct (map_map_is_map_compose 0 s 0
              (MkFuture false VUndefined [] FutureSink) times2 times2
              eq_refl) as [_ Hpending].
  destruct (Hpending eq_refl)
    as (sA & sB & HA & HB & _ & _ & _ & _ & _ & _ & _ & Hv).
  exists sA, sB. split; [exact HA|]. split; [exact HB|].
  destruct (Hv eq_refl (VNum 5)) as (sA' & sB' & H1 & H2 & H3 & H4 & _).
  exists sA', sB'. auto.
Defined.

(** ** Chain futures *)

Lemma push_chain_first n o fu f parent v s :
  heap s !! o = Some (OFuture fu) →
  cls fu = ChainFuture f parent false →
  push (S n) o v s
  = (newFuture ← build (push n) (f v); listen (push n) newFuture o)
      (put o (with_cls (ChainFuture f parent true) fu) s).
Proof.
  intros Ho Hc. simpl. unfold push_method.
  rewrite (bind_ok _ _ _ _ _ (getObj_ok _ _ _ Ho)). rewrite Hc.
  unfold pushChain. change (negb false) with true. cbv iota.
  by rewrite (bind_ok _ _ _ _ _ (setFuture_puts _ _ _)).
Qed.

Lemma push_chain_second n o fu f parent v s :
  heap s !! o = Some (OFuture fu) →
  cls fu = ChainFuture f parent true →
  push (S n) o v s = resolve (push n) o v s.
Proof.
  intros Ho Hc. simpl. unfold push_method.
  rewrite (bind_ok _ _ _ _ _ (getObj_ok _ _ _ Ho)). by rewrite Hc.
Qed.

(** The first push to a chain future, in any state. *)
Lemma push_chain_starts n C F f v t :
  heap t !! C
  = Some (OFuture (MkFuture false VUndefined [] (ChainFuture f F false))) →
  let chained occ v :=
    Some (OFuture (MkFuture occ v [] (ChainFuture f F true))) in
  (∀ Q fq, f v = EFuture Q → Q ≠ C →
     heap t !! Q = Some (OFuture fq) → occurred fq = true →
     ∃ t', push (S (S n)) C v t = Ok () t' ∧
           heap t' !! C = chained true (value fq)) ∧
  (∀ w, f v = EOf w →
     ∃ t', push (S (S n)) C v t = Ok () t' ∧
           heap t' !! C = chained true w) ∧
  (∀ Q fq, f v = EFuture Q → Q ≠ C →
     heap t !! Q = Some (OFuture fq) → occurred fq = false →
     ∃ t', push (S (S n)) C v t = Ok () t' ∧
           heap t' !! C = chained false VUndefined ∧
           heap t' !! Q
           = Some (OFuture (with_listeners (listeners fq ++ [C]) fq))).
Proof.
  intros HC chained. pose proof (lookup_lt_Some _ _ _ HC) as Hlt.
  split; [|split].
  - intros Q fq Hfv HQC HQ Hoq.
    pose proof (lookup_lt_Some _ _ _ HQ) as HltQ.
    eexists. split.
    + erewrite push_chain_first; [|done|reflexivity].
      rewrite Hfv. simpl build.
      erewrite bind_ok by reflexivity.
      erewrite listen_late; [|heap_solve|done].
      erewrite push_chain_second; [|heap_solve|reflexivity].
      erewrite resolve_no_listener; [reflexivity|heap_solve|reflexivity].
    + rewrite settled_put_logged. heap_solve.
  - intros w Hfv. eexists. split.
    + erewrite push_chain_first; [|done|reflexivity].
      rewrite Hfv. simpl build. unfold of_, newPureFuture.
      erewrite bind_ok by apply fresh_grows.
      erewrite listen_late; [|heap_solve|reflexivity].
      erewrite push_chain_second; [|heap_solve|reflexivity].
      erewrite resolve_no_listener; [reflexivity|heap_solve|reflexivity].
    + rewrite settled_put_logged. heap_solve.
  - intros Q fq Hfv HQC HQ Hoq.
    pose proof (lookup_lt_Some _ _ _ HQ) as HltQ.
    eexists. split; [|split].
    + erewrite push_chain_first; [|done|reflexivity].
      rewrite Hfv. simpl build.
      erewrite bind_ok by reflexivity.
      erewrite listen_pending; [reflexivity|heap_solve|done].
    + heap_solve.
    + heap_solve.
Qed.

(** The second push to a chain future, in any state. *)
Lemma push_chain_ends n C F f w u :
  heap u !! C
  = Some (OFuture (MkFuture false VUndefined [] (ChainFuture f F true))) →
  ∃ u', push (S n) C w u = Ok () u' ∧
        heap u' !! C
        = Some (OFuture (MkFuture true w [] (ChainFuture f F true))).
Proof.
  intros HC. pose proof (lookup_lt_Some _ _ _ HC) as Hlt.
  eexists. split.
  - erewrite push_chain_second; [|done|reflexivity].
    erewrite resolve_no_listener; [reflexivity|done|reflexivity].
  - rewrite settled_put_logged. heap_solve.
Qed.

(** C5. For every future [F] and every bind function [f].  If [F] is
    pending, [F.chain(f)] is pending after construction, also when the
    future that [f] will return has occurred already, and it is the last
    listener of [F].  The push of [v] that [F] delivers to it calls [f(v)]
    and listens to the future that call returns:
    if [f(v)] is a future that has occurred ([Future.of(w)] or an existing
    future [Q]), the chain occurs within that same push, with the value of
    that future; if [f(v)] is a pending future [Q], the chain stays pending
    and becomes the last listener of [Q], and the push of [w] that [Q]
    delivers makes it occur with [w].  When [F] (and [Q]) have no other
    listener, these pushes are made within [F.resolve(v)] (and
    [Q.resolve(w)]).  If [F] has occurred already, the first push is made by
    the constructor, with the value of [F]. *)
Theorem chain_occurs_after_both n s F fu f :
  heap s !! F = Some (OFuture fu) →
  let C := length (heap s) in
  let chained occ po v :=
    Some (OFuture (MkFuture occ v [] (ChainFuture f F po))) in
  (occurred fu = false →
   ∃ s1,
    (∀ p, chain p f F s = Ok C s1) ∧
    heap s1 !! F = Some (OFuture (with_listeners (listeners fu ++ [C]) fu)) ∧
    heap s1 !! C = chained false false VUndefined ∧
    (∀ k v t, heap t !! C = chained false false VUndefined →
       push (S k) C v t
       = (newFuture ← build (push k) (f v); listen (push k) newFuture C)
           (put C (MkFuture false VUndefined [] (ChainFuture f F true)) t)) ∧
    (∀ v t, heap t !! C = chained false false VUndefined →
       (∀ Q fq, f v = EFuture Q → Q ≠ C →
          heap t !! Q = Some (OFuture fq) → occurred fq = true →
          ∃ t', push (S (S n)) C v t = Ok () t' ∧
                heap t' !! C = chained true true (value fq)) ∧
       (∀ w, f v = EOf w →
          ∃ t', push (S (S n)) C v t = Ok () t' ∧
                heap t' !! C = chained true true w) ∧
       (∀ Q fq, f v = EFuture Q → Q ≠ C →
          heap t !! Q = Some (OFuture fq) → occurred fq = false →
          ∃ t', push (S (S n)) C v t = Ok () t' ∧
                heap t' !! C = chained false true VUndefined ∧
                heap t' !! Q
                = Some (OFuture (with_listeners (listeners fq ++ [C]) fq)))) ∧
    (∀ w u, heap u !! C = chained false true VUndefined →
       ∃ u', push (S n) C w u = Ok () u' ∧
             heap u' !! C = chained true true w) ∧
    (listeners fu = [] → ∀ v,
      (∀ Q fq, f v = EFuture Q → Q ≠ F →
         heap s !! Q = Some (OFuture fq) → occurred fq = true →
         ∃ s2, resolve (push (S (S n))) F v s1 = Ok () s2 ∧
               heap s2 !! C = chained true true (value fq)) ∧
      (f v = EFuture F →
         ∃ s2, resolve (push (S (S n))) F v s1 = Ok () s2 ∧
               heap s2 !! C = chained true true v) ∧
      (∀ w, f v = EOf w →
         ∃ s2, resolve (push (S (S n))) F v s1 = Ok () s2 ∧
               heap s2 !! C = chained true true w) ∧
      (∀ Q fq, f v = EFuture Q → Q ≠ F →
         heap s !! Q = Some (OFuture fq) → occurred fq = false →
         listeners fq = [] →
         ∃ s2, resolve (push (S (S n))) F v s1 = Ok () s2 ∧
               heap s2 !! C = chained false true VUndefined ∧
               ∀ w, ∃ s3,
                 resolve (push (S (S n))) Q w s2 = Ok () s3 ∧
                 heap s3 !! C = chained true true w))) ∧
  (occurred fu = true →
   (∀ Q fq, f (value fu) = EFuture Q →
      heap s !! Q = Some (OFuture fq) → occurred fq = true →
      ∃ s1, chain (push (S (S n))) f F s = Ok C s1 ∧
            heap s1 !! C = chained true true (value fq)) ∧
   (∀ w, f (value fu) = EOf w →
      ∃ s1, chain (push (S (S n))) f F s = Ok C s1 ∧
            heap s1 !! C = chained true true w) ∧
   (∀ Q fq, f (value fu) = EFuture Q →
      heap s !! Q = Some (OFuture fq) → occurred fq = false →
      ∃ s1, chain (push (S (S n))) f F s = Ok C s1 ∧
            heap s1 !! C = chained false true VUndefined ∧
            heap s1 !! Q
            = Some (OFuture (with_listeners (listeners fq ++ [C]) fq)))).
Proof.
  intros Hfu C chained.
  pose proof (lookup_lt_Some _ _ _ Hfu) as Hlt.
  split.
  { intros Hocc.
  eexists. split; [|split; [|split; [|split; [|split; [|split]]]]].
  - intros p. by apply construct_pending.
  - heap_solve.
  - heap_solve.
  - intros k v t Ht. by erewrite push_chain_first; [|done|reflexivity].
  - intros v t Ht. by apply push_chain_starts.
  - intros w u Hu. by apply push_chain_ends.
  - intros Hls v. split; [|split; [|split]].
    + intros Q fq Hfv HQF HQ Hoq.
      pose proof (lookup_lt_Some _ _ _ HQ) as HltQ.
      eexists. split.
      * erewrite resolve_one_listener; [|heap_solve|by rewrite Hls].
        rewrite settled_put_logged.
        erewrite push_chain_first; [|heap_solve|reflexivity].
        rewrite Hfv. simpl build.
        erewrite bind_ok by reflexivity.
        erewrite listen_late; [|heap_solve|done].
        erewrite push_chain_second; [|heap_solve|reflexivity].
        erewrite resolve_no_listener; [reflexivity|heap_solve|reflexivity].
      * rewrite settled_put_logged. heap_solve.
    + intros Hfv. eexists. split.
      * erewrite resolve_one_listener; [|heap_solve|by rewrite Hls].
        rewrite settled_put_logged.
        erewrite push_chain_first; [|heap_solve|reflexivity].
        rewrite Hfv. simpl build.
        erewrite bind_ok by reflexivity.
        erewrite listen_late; [|heap_solve|reflexivity].
        erewrite push_chain_second; [|heap_solve|reflexivity].
        erewrite resolve_no_listener; [reflexivity|heap_solve|reflexivity].
      * rewrite settled_put_logged. heap_solve.
    + intros w Hfv. eexists. split.
      * erewrite resolve_one_listener; [|heap_solve|by rewrite Hls].
        rewrite settled_put_logged.
        erewrite push_chain_first; [|heap_solve|reflexivity].
        rewrite Hfv. simpl build. unfold of_, newPureFuture.
        erewrite bind_ok by apply fresh_grows.
        erewrite listen_late; [|heap_solve|reflexivity].
        erewrite push_chain_second; [|heap_solve|reflexivity].
        erewrite resolve_no_listener; [reflexivity|heap_solve|reflexivity].
      * rewrite settled_put_logged. heap_solve.
    + intros Q fq Hfv HQF HQ Hoq Hlq.
      pose proof (lookup_lt_Some _ _ _ HQ) as HltQ.
      eexists. split; [|split].
      * erewrite resolve_one_listener; [|heap_solve|by rewrite Hls].
        rewrite settled_put_logged.
        erewrite push_chain_first; [|heap_solve|reflexivity].
        rewrite Hfv. simpl build.
        erewrite bind_ok by reflexivity.
        erewrite listen_pending; [reflexivity|heap_solve|done].
      * heap_solve.
      * intros w. eexists. split.
        -- erewrite resolve_one_listener; [|heap_solve|by rewrite Hlq].
           rewrite settled_put_logged.
           erewrite push_chain_second; [|heap_solve|reflexivity].
           erewrite resolve_no_listener; [reflexivity|heap_solve|reflexivity].
        -- rewrite settled_put_logged. heap_solve. }
  intros Hocc.
  set (o := OFuture (MkFuture false VUndefined [] (ChainFuture f F false))).
  assert (chain (push (S (S n))) f F s
          = (push (S (S n)) C (value fu);; mret C) (grow o s)) as Hchain.
  { by apply construct_late. }
  assert (heap (grow o s) !! C
          = Some (OFuture (MkFuture false VUndefined []
                    (ChainFuture f F false)))) as HC.
  { by apply lookup_grow_eq. }
  destruct (push_chain_starts n C F f (value fu) (grow o s) HC)
    as (Hlate & Hof & Hpending).
  split; [|split].
  - intros Q fq Hfv HQ Hoq.
    pose proof (lookup_lt_Some _ _ _ HQ) as HltQ.
    destruct (Hlate Q fq Hfv) as (s1 & Hrun & HC1);
      [unfold C; lia|by rewrite lookup_grow_lt|done|].
    exists s1. split; [|done]. rewrite Hchain. by erewrite bind_ok.
  - intros w Hfv. destruct (Hof w Hfv) as (s1 & Hrun & HC1).
    exists s1. split; [|done]. rewrite Hchain. by erewrite bind_ok.
  - intros Q fq Hfv HQ Hoq.
    pose proof (lookup_lt_Some _ _ _ HQ) as HltQ.
    destruct (Hpending Q fq Hfv) as (s1 & Hrun & HC1 & HQ1);
      [unfold C; lia|by rewrite lookup_grow_lt|done|].
    exists s1. split; [|done]. rewrite Hchain. by erewrite bind_ok.
Qed.

Lemma chain_witness :
  let s := MkState [OFuture (MkFuture false VUndefined [] FutureSink)] [] [] in
  ∃ s1, (∀ p, chain p (λ v, EOf (times2 v)) 0 s = Ok 1 s1) ∧
    ∃ s2, resolve (push 2) 0 (VNum 4) s1 = Ok () s2 ∧
          heap s2 !! 1
          = Some (OFuture (MkFuture true (VNum 8) []
                    (ChainFuture (λ v, EOf (times2 v)) 0 true))).
Proof.
  intros s.
  destruct (chain_occurs_after_both 0 s 0
              (MkFuture false VUndefined [] FutureSink)
              (λ v, EOf (times2 v)) eq_refl) as [Hpending _].
  destruct (Hpending eq_refl) as (s1 & Hc & _ & _ & _ & _ & _ & Hv).
  exists s1. split; [exact Hc|].
  destruct (Hv eq_refl (VNum 4)) as (_ & _ & Hof & _).
  exact (Hof (VNum 8) eq_refl).
Defined.

(** ** Lift futures *)

(** The loop of the constructor of [LiftFuture] over pending parents: each
    parent gets the lift as its last listener. *)
Lemma register_all p L rest : ∀ pre s,
  NoDup rest →
  (∀ r, r ∈ rest →
        ∃ fu, heap s !! r = Some (OFuture fu) ∧ occurred fu = false) →
  ∃ s',
    for_loop (length rest) (length pre) (λ i,
      match (pre ++ rest) !! i with
      | Some q => listen p q L
      | None => throw TypeError
      end) s = Ok () s' ∧
    (∀ r fu, r ∈ rest → heap s !! r = Some (OFuture fu) →
             heap s' !! r
             = Some (OFuture (with_listeners (listeners fu ++ [L]) fu))) ∧
    (∀ r, r ∉ rest → heap s' !! r = heap s !! r) ∧
    log s' = log s.
Proof.
  induction rest as [|q rest IH]; intros pre s Hnd Hall.
  - exists s. split; [done|]. split; [|done].
    intros r fu Hr. by apply elem_of_nil in Hr.
  - apply NoDup_cons in Hnd as [Hq Hnd].
    destruct (Hall q) as (fq & Hfq & Hoq); [left|].
    pose proof (lookup_lt_Some _ _ _ Hfq) as Hlt.
    destruct (IH (pre ++ [q])
                (put q (with_listeners (listeners fq ++ [L]) fq) s) Hnd)
      as (s' & Hrun & Hin & Hout & Hlog).
    { intros r Hr. rewrite lookup_put_ne by (intros ->; done).
      apply Hall. by right. }
    exists s'. split; [|split; [|split]].
    + cbn [for_loop length].
      erewrite bind_ok; cycle 1.
      { rewrite list_lookup_middle by done. by apply listen_pending. }
      rewrite <- Hrun. rewrite length_app. cbn [length].
      rewrite Nat.add_1_r. by rewrite <- app_assoc.
    + intros r fu [->|Hr]%elem_of_cons Hfu.
      * rewrite Hout by done. rewrite lookup_put_eq by done.
        by replace fu with fq by congruence.
      * apply Hin; [done|]. rewrite lookup_put_ne; [done|]. by intros ->.
    + intros r Hr%not_elem_of_cons. destruct Hr as [Hrq Hr].
      rewrite Hout by done. by rewrite lookup_put_ne.
    + by rewrite Hlog, log_put.
Qed.

Lemma push_lift_counts n o fu f slots d l v s :
  heap s !! o = Some (OFuture fu) →
  cls fu = LiftFuture f slots d l →
  S d ≠ l →
  push (S n) o v s
  = Ok () (put o (with_cls (LiftFuture f slots (S d) l) fu) s).
Proof.
  intros Ho Hc Hne. simpl. unfold push_method.
  rewrite (bind_ok _ _ _ _ _ (getObj_ok _ _ _ Ho)). rewrite Hc.
  unfold pushLift.
  rewrite (bind_ok _ _ _ _ _ (setFuture_puts _ _ _)).
  by destruct (Nat.eqb_spec (S d) l).
Qed.

Lemma push_lift_fires n o fu f slots d l v s :
  heap s !! o = Some (OFuture fu) →
  cls fu = LiftFuture f slots d l →
  S d = l →
  push (S n) o v s
  = (for_loop l 0 (λ i,
       xs ← lift_slots o;
       match xs !! i with
       | Some x =>
           w ← slot_value x;
           fu' ← getFuture o;
           setFuture o
             (with_cls (LiftFuture f (<[i := SValue w]> xs) (S d) l) fu')
       | None => throw TypeError
       end);;
     xs ← lift_slots o;
     resolve (push n) o (fn_apply f (slot_arg <$> xs)))
      (put o (with_cls (LiftFuture f slots (S d) l) fu) s).
Proof.
  intros Ho Hc He. simpl. unfold push_method.
  rewrite (bind_ok _ _ _ _ _ (getObj_ok _ _ _ Ho)). rewrite Hc.
  unfold pushLift.
  rewrite (bind_ok _ _ _ _ _ (setFuture_puts _ _ _)).
  by destruct (Nat.eqb_spec (S d) l).
Qed.

Lemma lift_slots_ok L fu f slots d l s :
  heap s !! L = Some (OFuture fu) →
  cls fu = LiftFuture f slots d l →
  lift_slots L s = Ok slots s.
Proof.
  intros HL Hc. unfold lift_slots.
  rewrite (bind_ok _ _ _ _ _ (getFuture_ok _ _ _ HL)). by rewrite Hc.
Qed.

Lemma slot_value_future r fu s :
  heap s !! r = Some (OFuture fu) →
  slot_value (SFuture r) s = Ok (value fu) s.
Proof.
  intros Hr. simpl. by rewrite (bind_ok _ _ _ _ _ (getObj_ok _ _ _ Hr)).
Qed.

(** The loop that replaces the parents by their values, from the entry
    after the values [donev] on. *)
Lemma collect_values L f d l vs occ v0 ls rest : ∀ donev s,
  heap s !! L
  = Some (OFuture (MkFuture occ v0 ls
            (LiftFuture f ((SValue <$> donev) ++ (SFuture <$> rest)) d l))) →
  (∀ r, r ∈ rest → r ≠ L ∧
        ∃ fu, heap s !! r = Some (OFuture fu) ∧ value fu = vs r) →
  ∃ s',
    for_loop (length rest) (length donev) (λ i,
      xs ← lift_slots L;
      match xs !! i with
      | Some x =>
          w ← slot_value x;
          fu' ← getFuture L;
          setFuture L (with_cls (LiftFuture f (<[i := SValue w]> xs) d l) fu')
      | None => throw TypeError
      end) s = Ok () s' ∧
    heap s' !! L
    = Some (OFuture (MkFuture occ v0 ls
              (LiftFuture f (SValue <$> (donev ++ (vs <$> rest))) d l))) ∧
    log s' = log s.
Proof.
  induction rest as [|r rest IH]; intros donev s HL Hall.
  - exists s. split; [done|]. split; [|done].
    by rewrite HL, !fmap_nil, !app_nil_r.
  - destruct (Hall r) as (HrL & fr & Hfr & Hvr); [left|].
    pose proof (lookup_lt_Some _ _ _ HL) as Hlt.
    set (slots := (SValue <$> donev) ++ (SFuture <$> r :: rest)) in *.
    set (fuL := MkFuture occ v0 ls (LiftFuture f slots d l)) in *.
    destruct (IH (donev ++ [vs r])
                (put L (with_cls
                   (LiftFuture f (<[length donev := SValue (vs r)]> slots) d l)
                   fuL) s))
      as (s' & Hrun & HL' & Hlog).
    { rewrite lookup_put_eq by done. unfold with_cls, fuL, slots. simpl.
      do 4 f_equal.
      replace (length donev) with (length (SValue <$> donev) + 0)
        by (rewrite length_fmap; lia).
      rewrite insert_app_r. simpl. rewrite fmap_app. simpl.
      by rewrite <- app_assoc. }
    { intros q Hq. destruct (Hall q) as (HqL & fq & Hfq & Hvq); [by right|].
      split; [done|]. exists fq. by rewrite lookup_put_ne. }
    exists s'. split; [|split].
    + cbn [for_loop length].
      erewrite bind_ok; cycle 1.
      { erewrite bind_ok by (by eapply (lift_slots_ok L fuL)).
        replace (slots !! length donev) with (Some (SFuture r)).
        2:{ unfold slots. rewrite fmap_cons.
            replace (length donev) with (length (SValue <$> donev))
              by apply length_fmap.
            by rewrite list_lookup_middle. }
        erewrite bind_ok by (by apply slot_value_future).
        erewrite bind_ok by (by apply getFuture_ok).
        rewrite Hvr. apply setFuture_puts. }
      rewrite <- Hrun. rewrite length_app. cbn [length].
      by rewrite Nat.add_1_r.
    + rewrite HL'. by rewrite <- app_assoc.
    + by rewrite Hlog, log_put.
Qed.

Lemma slot_arg_values (l : list val) : slot_arg <$> (SValue <$> l) = l.
Proof. induction l as [|v l IH]; [done|]. rewrite !fmap_cons. by f_equal. Qed.

Section LiftRun.
Variables (n : nat) (L : ref) (f : jsfun) (ps : list ref) (vs : ref → val).
Hypothesis L_fresh : L ∉ ps.

(** One parent occurs and others are still pending: the lift counts it. *)
Lemma lift_waits resolved r pending s :
awaiting L f ps vs resolved (r :: pending) s →
NoDup (resolved ++ r :: pending) →
resolved ++ r :: pending ≡ₚ ps →
pending ≠ [] →
∃ s',
  resolve (push (S n)) r (vs r) s = Ok () s' ∧
  awaiting L f ps vs (resolved ++ [r]) pending s' ∧
  log s' = log s ++ [Resolved r (vs r)].
Proof using L_fresh.
intros (HL & Hpend & Hres) Hnd Hperm Hne.
destruct (Hpend r) as (fr & Hfr & Hor & Hlr); [left|].
assert (r ≠ L) as HrL.
{ intros ->. apply L_fresh. rewrite <- Hperm. apply elem_of_app. right. left. }
pose proof (lookup_lt_Some _ _ _ HL) as HltL.
pose proof (lookup_lt_Some _ _ _ Hfr) as Hltr.
assert (S (length resolved) ≠ length ps) as Hcount.
{ rewrite <- Hperm, length_app. simpl. destruct pending; [done|simpl; lia]. }
apply NoDup_app in Hnd as (Hnd1 & Hdisj & Hnd2).
apply NoDup_cons in Hnd2 as [Hrp Hnd2].
eexists. split; [|split].
- erewrite resolve_one_listener; [|done..].
  rewrite settled_put_logged.
  erewrite push_lift_counts; [reflexivity|heap_solve|reflexivity|done].
- split; [|split].
  + heap_simpl. rewrite length_app. simpl. by rewrite Nat.add_1_r.
  + intros q Hq. destruct (Hpend q) as (fq & Hfq & Hq'); [by right|].
    assert (q ≠ L).
    { intros ->. apply L_fresh. rewrite <- Hperm.
      apply elem_of_app. right. by right. }
    assert (q ≠ r) by (intros ->; done).
    exists fq. split; [heap_solve|done].
  + intros q [Hq|Hq]%elem_of_app.
    * destruct (Hres q Hq) as (fq & Hfq & Hq').
      assert (q ≠ L).
      { intros ->. apply L_fresh. rewrite <- Hperm.
        apply elem_of_app. by left. }
      assert (q ≠ r).
      { intros ->. eapply Hdisj; [done|left]. }
      exists fq. split; [heap_solve|done].
    * apply list_elem_of_singleton in Hq as ->.
      eexists. split; [heap_solve|done].
- by heap_simpl.
Qed.

(** The push that completes the count, in any state: the lift reads the
    values of its parents and resolves itself. *)
Lemma push_lift_completes d v t :
  heap t !! L
  = Some (OFuture (MkFuture false VUndefined []
            (LiftFuture f (SFuture <$> ps) d (length ps)))) →
  S d = length ps →
  (∀ r, r ∈ ps → ∃ fu, heap t !! r = Some (OFuture fu) ∧ value fu = vs r) →
  ∃ t',
    push (S n) L v t = Ok () t' ∧
    heap t' !! L
    = Some (OFuture (MkFuture true (fn_apply f (vs <$> ps)) []
              (LiftFuture f (SValue <$> (vs <$> ps)) (S d) (length ps)))) ∧
    log t' = log t ++ [Resolved L (fn_apply f (vs <$> ps))].
Proof using L_fresh.
  intros HL Hcount Hvals.
  pose proof (lookup_lt_Some _ _ _ HL) as HltL.
  set (t1 := put L (with_cls
                (LiftFuture f (SFuture <$> ps) (S d) (length ps))
                (MkFuture false VUndefined []
                   (LiftFuture f (SFuture <$> ps) d (length ps)))) t).
  destruct (collect_values L f (S d) (length ps) vs
              false VUndefined [] ps [] t1) as (t2 & Hrun & HL2 & Hlog2).
  { unfold t1. heap_simpl. reflexivity. }
  { intros q Hq. assert (q ≠ L) by (intros ->; done). split; [done|].
    destruct (Hvals q Hq) as (fq & Hfq & Hvq).
    exists fq. split; [|done]. unfold t1. heap_solve. }
  simpl in HL2.
  eexists. split; [|split].
  - erewrite push_lift_fires; [|done|reflexivity|done].
    fold t1. erewrite bind_ok by exact Hrun.
    erewrite bind_ok by (by eapply lift_slots_ok).
    erewrite resolve_no_listener; [reflexivity|done..].
  - rewrite settled_put_logged. heap_simpl.
    rewrite lookup_put_eq; [|done|by eapply lookup_lt_Some].
    unfold with_value. simpl. by rewrite slot_arg_values.
  - rewrite settled_put_logged. heap_simpl. rewrite Hlog2. unfold t1.
    heap_simpl. by rewrite slot_arg_values.
Qed.

(** The last parent occurs: the lift fires. *)
Lemma lift_fires resolved r s :
  awaiting L f ps vs resolved [r] s →
  NoDup (resolved ++ [r]) →
  resolved ++ [r] ≡ₚ ps →
  ∃ s',
    resolve (push (S n)) r (vs r) s = Ok () s' ∧
    heap s' !! L
    = Some (OFuture (MkFuture true (fn_apply f (vs <$> ps)) []
              (LiftFuture f (SValue <$> (vs <$> ps))
                 (length ps) (length ps)))) ∧
    log s' = log s ++ [Resolved r (vs r);
                       Resolved L (fn_apply f (vs <$> ps))].
Proof using L_fresh.
  intros (HL & Hpend & Hres) Hnd Hperm.
  destruct (Hpend r) as (fr & Hfr & Hor & Hlr); [left|].
  assert (r ≠ L) as HrL.
  { intros ->. apply L_fresh. rewrite <- Hperm. apply elem_of_app. right. left. }
  pose proof (lookup_lt_Some _ _ _ HL) as HltL.
  pose proof (lookup_lt_Some _ _ _ Hfr) as Hltr.
  assert (S (length resolved) = length ps) as Hcount.
  { rewrite <- Hperm, length_app. simpl. lia. }
  apply NoDup_app in Hnd as (Hnd1 & Hdisj & _).
  destruct (push_lift_completes (length resolved) (vs r)
              (settled r (vs r) fr s)) as (s' & Hrun & HL' & Hlog');
    [rewrite settled_put_logged; heap_solve|done| |].
  { intros q Hq. rewrite <- Hperm in Hq. apply elem_of_app in Hq as [Hq|Hq].
    - destruct (Hres q Hq) as (fq & Hfq & _ & Hvq).
      assert (q ≠ r).
      { intros ->. eapply Hdisj; [done|left]. }
      exists fq. split; [|done]. rewrite settled_put_logged. heap_solve.
    - apply list_elem_of_singleton in Hq as ->.
      eexists. split; [rewrite settled_put_logged; heap_solve|done]. }
  exists s'. split; [|split].
  - erewrite resolve_one_listener; [|done..]. by rewrite Hrun.
  - by rewrite HL', Hcount.
  - rewrite Hlog'. rewrite settled_put_logged. heap_simpl.
    by rewrite <- !app_assoc.
Qed.

(** Resolving some of the pending parents, but not all. *)
Lemma lift_waits_each pre : ∀ resolved post s,
awaiting L f ps vs resolved (pre ++ post) s →
NoDup (resolved ++ pre ++ post) →
resolved ++ pre ++ post ≡ₚ ps →
post ≠ [] →
∃ s',
  resolve_each (push (S n)) vs pre s = Ok () s' ∧
  awaiting L f ps vs (resolved ++ pre) post s' ∧
  log s' = log s ++ ((λ r, Resolved r (vs r)) <$> pre).
Proof using L_fresh.
induction pre as [|r pre IH]; intros resolved post s Haw Hnd Hperm Hne.
- exists s. by rewrite !app_nil_r.
- destruct (lift_waits resolved r (pre ++ post) s Haw Hnd Hperm)
    as (s1 & Hrun1 & Haw1 & Hlog1).
  { by destruct pre, post. }
  destruct (IH (resolved ++ [r]) post s1 Haw1) as (s2 & Hrun2 & Haw2 & Hlog2).
  { by rewrite <- app_assoc. }
  { by rewrite <- app_assoc. }
  { done. }
  exists s2. split; [|split].
  + simpl. by erewrite bind_ok by exact Hrun1.
  + by rewrite <- app_assoc in Haw2.
  + rewrite Hlog2, Hlog1. by rewrite <- app_assoc.
Qed.
End LiftRun.

Lemma resolutions_app r evs1 evs2 :
  resolutions r (evs1 ++ evs2) = resolutions r evs1 ++ resolutions r evs2.
Proof.
  induction evs1 as [|[r' v| | |] evs1 IH]; simpl; [done| |done..].
  destruct (r =? r'); simpl; by rewrite IH.
Qed.

Lemma resolutions_others r (vs : ref → val) rs :
  r ∉ rs → resolutions r ((λ q, Resolved q (vs q)) <$> rs) = [].
Proof.
  induction rs as [|q rs IH]; [done|].
  intros [Hq Hrs]%not_elem_of_cons. rewrite fmap_cons. simpl.
  destruct (Nat.eqb_spec r q); [done|by apply IH].
Qed.

Lemma resolve_each_app p vs pre post s s' :
  resolve_each p vs pre s = Ok () s' →
  resolve_each p vs (pre ++ post) s = resolve_each p vs post s'.
Proof.
  revert s. induction pre as [|r pre IH]; intros s; simpl.
  - by intros [= ->].
  - unfold mbind, M_bind. destruct (resolve p r (vs r) s); [|done..].
    apply IH.
Qed.

(** The constructor of [LiftFuture] on pending parents. *)
Lemma newLiftFuture_registers p f ps s :
  NoDup ps →
  (∀ r, r ∈ ps →
        ∃ fu, heap s !! r = Some (OFuture fu) ∧ occurred fu = false) →
  ∃ s0,
    newLiftFuture p f ps s = Ok (length (heap s)) s0 ∧
    heap s0 !! length (heap s)
    = Some (OFuture (MkFuture false VUndefined []
              (LiftFuture f (SFuture <$> ps) 0 (length ps)))) ∧
    (∀ r fu, r ∈ ps → heap s !! r = Some (OFuture fu) →
             heap s0 !! r
             = Some (OFuture
                 (with_listeners (listeners fu ++ [length (heap s)]) fu))) ∧
    log s0 = log s.
Proof.
  intros Hnd Hall.
  assert (length (heap s) ∉ ps) as Hfresh.
  { intros Hin. destruct (Hall _ Hin) as (fu & Hfu & _).
    apply lookup_lt_Some in Hfu. lia. }
  set (o := OFuture (MkFuture false VUndefined []
                       (LiftFuture f (SFuture <$> ps) 0 (length ps)))).
  destruct (register_all p (length (heap s)) ps [] (grow o s) Hnd)
    as (s0 & Hrun & Hin & Hout & Hlog).
  { intros r Hr. destruct (Hall r Hr) as (fu & Hfu & Hk).
    exists fu. split; [|done].
    rewrite lookup_grow_lt; [done|]. by eapply lookup_lt_Some. }
  exists s0. split; [|split; [|split]].
  - unfold newLiftFuture, fresh.
    rewrite (bind_ok _ _ _ _ _ (alloc_grows _ s)).
    by erewrite bind_ok by exact Hrun.
  - rewrite Hout by done. by rewrite lookup_grow_eq.
  - intros r fu Hr Hfu. apply Hin; [done|].
    rewrite lookup_grow_lt; [done|]. by eapply lookup_lt_Some.
  - by rewrite Hlog, log_grow.
Qed.

(** C4. For every lift [L] over [n >= 1] distinct pending parents [ps] and
    every combining function [f] (the [LiftFuture] that [lift] constructs
    when the declared length of [f] is not 1): after construction [L] is
    pending and is the last listener of each parent.  A push to [L] that does not complete
    the count of the parents only counts; the push that completes it makes
    [L] occur, within that push, with [f] applied to the stored values of
    the parents in the order [ps].  When the parents have no other listener
    and are resolved in any order [order], a permutation of [ps], each
    parent [r] with the value [vs r]: as long as some parent has not been
    resolved, [L] has not occurred and [resolve] has not been called on it;
    when all have been resolved, [L] has occurred with the value
    [f(vs p1, ..., vs pn)], the same for every order, and [resolve] has been
    called on [L] exactly once. *)
Theorem lift_fires_once_after_all_parents n f ps vs s :
  ps ≠ [] →
  NoDup ps →
  (∀ r, r ∈ ps →
        ∃ fu, heap s !! r = Some (OFuture fu) ∧ occurred fu = false) →
  let L := length (heap s) in
  let result := fn_apply f (vs <$> ps) in
  let lifted occ v slots d :=
    Some (OFuture (MkFuture occ v [] (LiftFuture f slots d (length ps)))) in
  ∃ s0,
    newLiftFuture (push n) f ps s = Ok L s0 ∧
    (fn_length f ≠ 1 → lift (push n) f ps s = Ok L s0) ∧
    heap s0 !! L = lifted false VUndefined (SFuture <$> ps) 0 ∧
    (∀ r fu, r ∈ ps → heap s !! r = Some (OFuture fu) →
       heap s0 !! r
       = Some (OFuture (with_listeners (listeners fu ++ [L]) fu))) ∧
    (∀ d v t,
       heap t !! L = lifted false VUndefined (SFuture <$> ps) d →
       S d ≠ length ps →
       ∃ t', push (S n) L v t = Ok () t' ∧
             heap t' !! L = lifted false VUndefined (SFuture <$> ps) (S d) ∧
             log t' = log t) ∧
    (∀ d v t,
       heap t !! L = lifted false VUndefined (SFuture <$> ps) d →
       S d = length ps →
       (∀ r, r ∈ ps →
             ∃ fu, heap t !! r = Some (OFuture fu) ∧ value fu = vs r) →
       ∃ t', push (S n) L v t = Ok () t' ∧
             heap t' !! L
             = lifted true result (SValue <$> (vs <$> ps)) (S d) ∧
             log t' = log t ++ [Resolved L result]) ∧
    ((∀ r fu, r ∈ ps → heap s !! r = Some (OFuture fu) → listeners fu = []) →
     ∀ order, order ≡ₚ ps →
       (∀ pre post, order = pre ++ post → post ≠ [] →
          ∃ s' evs,
            resolve_each (push (S n)) vs pre s0 = Ok () s' ∧
            (∃ fu, heap s' !! L = Some (OFuture fu) ∧ occurred fu = false) ∧
            log s' = log s ++ evs ∧ resolutions L evs = []) ∧
       ∃ s' evs,
         resolve_each (push (S n)) vs order s0 = Ok () s' ∧
         (∃ fu, heap s' !! L = Some (OFuture fu) ∧
                occurred fu = true ∧ value fu = result) ∧
         log s' = log s ++ evs ∧ resolutions L evs = [result]).
Proof.
  intros Hne Hnd Hall L result lifted.
  assert (L ∉ ps) as Hfresh.
  { intros Hin. destruct (Hall _ Hin) as (fu & Hfu & _).
    apply lookup_lt_Some in Hfu. unfold L in Hfu. lia. }
  destruct (newLiftFuture_registers (push n) f ps s Hnd Hall)
    as (s0 & Hnew & HL0 & Hreg0 & Hlog0).
  exists s0. split; [done|]. split.
  { intros Hlen. unfold lift. by destruct (Nat.eqb_spec (fn_length f) 1). }
  split; [done|]. split; [done|].
  split; [|split].
  { intros d v t Ht Hd. pose proof (lookup_lt_Some _ _ _ Ht) as Hlt.
    eexists. split; [|split].
    - by erewrite push_lift_counts; [|done|reflexivity|].
    - heap_solve.
    - by heap_simpl. }
  { intros d v t Ht Hd Hvals.
    by apply (push_lift_completes n L f ps vs Hfresh). }
  intros Hlone order Hperm.
  assert (awaiting L f ps vs [] order s0) as Haw.
  { split; [done|]. split.
    - intros r Hr. rewrite Hperm in Hr.
      destruct (Hall r Hr) as (fu & Hfu & Hocc).
      eexists. split; [by apply Hreg0|]. split; [done|].
      simpl. by rewrite (Hlone r fu).
    - intros r Hr. by apply elem_of_nil in Hr. }
  assert (NoDup order) as Hnd' by (by rewrite Hperm).
  split.
  - intros pre post -> Hpost.
    destruct (lift_waits_each n L f ps vs Hfresh pre [] post s0 Haw)
      as (s' & Hrun & (HL' & _) & Hlog'); [done..|].
    exists s', ((λ r, Resolved r (vs r)) <$> pre).
    split; [done|]. split; [eauto|]. split; [by rewrite Hlog', Hlog0|].
    apply resolutions_others. intros Hin. apply Hfresh.
    rewrite <- Hperm. apply elem_of_app. by left.
  - destruct (exists_last (l := order)) as (pre & r & ->).
    { intros ->. apply Permutation_nil_l in Hperm. by subst. }
    destruct (lift_waits_each n L f ps vs Hfresh pre [] [r] s0 Haw)
      as (s1 & Hrun1 & Haw1 & Hlog1); [done..|].
    destruct (lift_fires n L f ps vs Hfresh pre r s1 Haw1)
      as (s2 & Hrun2 & HL2 & Hlog2); [done..|].
    exists s2, (((λ r, Resolved r (vs r)) <$> pre)
                ++ [Resolved r (vs r); Resolved L result]).
    split; [|split; [|split]].
    + rewrite (resolve_each_app _ _ _ _ _ _ Hrun1). simpl.
      by erewrite bind_ok by exact Hrun2.
    + eexists. split; [done|]. done.
    + rewrite Hlog2, Hlog1, Hlog0. by rewrite <- !app_assoc.
    + rewrite resolutions_app, resolutions_others.
      2:{ intros Hin. apply Hfresh. rewrite <- Hperm.
          apply elem_of_app. by left. }
      simpl. rewrite Nat.eqb_refl.
      destruct (Nat.eqb_spec L r) as [->|]; [|done].
      exfalso. apply Hfresh. rewrite <- Hperm. apply elem_of_app.
      right. left.
Qed.

Lemma lift_witness :
  ∃ s0,
    newLiftFuture (push 0) add3 [0; 1; 2] three_sinks = Ok 3 s0 ∧
    ∃ s' evs,
      resolve_each (push 1) (λ r, VNum (Z.of_nat r + 1)) [1; 2; 0] s0
        = Ok () s' ∧
      (∃ fu, heap s' !! 3 = Some (OFuture fu) ∧
             occurred fu = true ∧ value fu = VNum 6) ∧
      log s' = evs ∧ resolutions 3 evs = [VNum 6].
Proof.
  assert ([0; 1; 2] ≠ []) as Hne by done.
  assert (NoDup [0; 1; 2]) as Hnd by (by apply (bool_decide_unpack _)).
  assert (∀ r, r ∈ [0; 1; 2] →
            ∃ fu, heap three_sinks !! r = Some (OFuture fu) ∧
                  occurred fu = false) as Hall.
  { intros r Hr. exists (MkFuture false VUndefined [] FutureSink).
    repeat (apply elem_of_cons in Hr as [->|Hr]; [done|]).
    by apply elem_of_nil in Hr. }
  assert (∀ r fu, r ∈ [0; 1; 2] →
            heap three_sinks !! r = Some (OFuture fu) →
            listeners fu = []) as Hlone.
  { intros r fu Hr.
    repeat (apply elem_of_cons in Hr as [->|Hr]; [by intros [= <-]|]).
    by apply elem_of_nil in Hr. }
  destruct (lift_fires_once_after_all_parents 0 add3 [0; 1; 2]
              (λ r, VNum (Z.of_nat r + 1)) three_sinks Hne Hnd Hall)
    as (s0 & Hnew & _ & _ & _ & _ & _ & Horder).
  specialize (Horder Hlone).
  exists s0. split; [exact Hnew|].
  assert ([1; 2; 0] ≡ₚ [0; 1; 2]) as Hperm.
  { change ([1; 2] ++ [0] ≡ₚ [0] ++ [1; 2]). apply Permutation_app_comm. }
  destruct (Horder [1; 2; 0] Hperm) as (_ & s' & evs & Hrun & HL & Hlog & Hres).
  exists s', evs. auto.
Defined.

(** * Further properties of the code *)

(** ** Subscriptions *)

Lemma lookup_logged_all r evs s : heap (logged_all evs s) !! r = heap s !! r.
Proof. done. Qed.
Lemma log_logged_all evs s : log (logged_all evs s) = log s ++ evs.
Proof. done. Qed.
Lemma length_logged_all evs s :
  length (heap (logged_all evs s)) = length (heap s).
Proof. done. Qed.
Lemma logged_all_nil s : logged_all [] s = s.
Proof. unfold logged_all. rewrite app_nil_r. by destruct s. Qed.
Lemma logged_logged_all e evs s :
  logged e (logged_all evs s) = logged_all (evs ++ [e]) s.
Proof.
  with_strategy transparent [logged] unfold logged, logged_all.
  simpl. by rewrite <- app_assoc.
Qed.
Lemma logged_all_logged e evs s :
  logged_all evs (logged e s) = logged_all (e :: evs) s.
Proof.
  with_strategy transparent [logged] unfold logged, logged_all.
  simpl. by rewrite <- app_assoc.
Qed.

#[global] Opaque logged_all.

Ltac heap_lengths ::=
  repeat first
    [ rewrite length_put | rewrite length_grow | rewrite length_logged
    | rewrite length_logged_all ].

Ltac heap_simpl' :=
  repeat first
    [ progress heap_simpl
    | rewrite lookup_logged_all
    | rewrite log_logged_all
    | rewrite length_logged_all ].

Ltac heap_solve' := heap_simpl'; first [reflexivity | eassumption].

(** Subscriptions stay what they are when a future is overwritten, an
    object is allocated or the log grows. *)
Lemma subscribed_put r fu fu' s ls gs :
  heap s !! r = Some (OFuture fu) →
  subscribed s ls gs → subscribed (put r fu' s) ls gs.
Proof.
  intros Hr Hs. eapply Forall2_impl; [exact Hs|]. intros o g [p Ho]. exists p.
  rewrite lookup_put_ne; [done|]. intros ->. congruence.
Qed.

Lemma subscribed_grow o s ls gs :
  subscribed s ls gs → subscribed (grow o s) ls gs.
Proof.
  intros Hs. eapply Forall2_impl; [exact Hs|]. intros x g [p Hx]. exists p.
  rewrite lookup_grow_lt; [done|]. by eapply lookup_lt_Some.
Qed.

Lemma subscribed_logged_all evs s ls gs :
  subscribed s ls gs → subscribed (logged_all evs s) ls gs.
Proof.
  intros Hs. eapply Forall2_impl; [exact Hs|].
  intros x g [p Hx]. exists p. by heap_simpl'.
Qed.

Lemma subscribed_logged e s ls gs :
  subscribed s ls gs → subscribed (logged e s) ls gs.
Proof.
  intros Hs. eapply Forall2_impl; [exact Hs|].
  intros x g [p Hx]. exists p. by heap_simpl'.
Qed.

Lemma subscribed_snoc s ls gs o g p :
  subscribed s ls gs →
  heap s !! o = Some (OSubscription g p) →
  subscribed s (ls ++ [o]) (gs ++ [g]).
Proof.
  intros Hs Ho. apply Forall2_app; [done|].
  constructor; [eauto|constructor].
Qed.

(** Delivery to subscriptions calls each callback once, in order, and
    changes nothing but the log. *)
Lemma deliver_subscribed n v ls gs : ∀ s,
  subscribed s ls gs →
  deliver (push (S n)) ls v s = Ok () (logged_all (calls gs v) s).
Proof.
  intros s Hs. rewrite <- (logged_all_nil s) at 1.
  change (calls gs v) with ([] ++ calls gs v).
  generalize (@nil event) as evs.
  induction Hs as [|o g ls gs [p Ho] Hs IH]; intros evs.
  - by rewrite app_nil_r.
  - cbn [deliver].
    erewrite bind_ok; cycle 1.
    { eapply push_subscription. by heap_simpl'. }
    rewrite logged_logged_all, IH. unfold calls. rewrite fmap_cons.
    by rewrite <- app_assoc.
Qed.

(** [resolve] on a future all of whose listeners are subscriptions. *)
Lemma resolve_subscribed n this v s fu gs :
  heap s !! this = Some (OFuture fu) →
  subscribed s (listeners fu) gs →
  resolve (push (S n)) this v s
  = Ok () (logged_all (calls gs v) (settled this v fu s)).
Proof.
  intros Hfu Hs.
  rewrite (resolve_settles_delivers _ (mono_push (S n)) _ _ _ _ Hfu).
  apply deliver_subscribed. rewrite settled_put_logged.
  by apply subscribed_logged, (subscribed_put this fu).
Qed.

(** What [subscribe] does to a pending future whose listeners are
    subscriptions. *)
Lemma subscribe_each_registers p fs this : ∀ s fu gs,
  heap s !! this = Some (OFuture fu) →
  occurred fu = false →
  subscribed s (listeners fu) gs →
  ∃ s1 fu1,
    subscribe_each p fs this s = Ok () s1 ∧
    heap s1 !! this = Some (OFuture fu1) ∧
    occurred fu1 = false ∧
    subscribed s1 (listeners fu1) (gs ++ fs) ∧
    log s1 = log s.
Proof.
  induction fs as [|f fs IH]; intros s fu gs Hfu Hocc Hs.
  - exists s, fu. by rewrite app_nil_r.
  - pose proof (lookup_lt_Some _ _ _ Hfu) as Hlt.
    set (o := OSubscription f this).
    set (fu1 := with_listeners (listeners fu ++ [length (heap s)]) fu).
    destruct (IH (put this fu1 (grow o s)) fu1 (gs ++ [f]))
      as (s1 & fu2 & Hrun & Hfu2 & Hocc2 & Hs2 & Hlog2).
    { by heap_simpl. }
    { done. }
    { apply (subscribed_snoc _ _ _ _ _ this).
      - apply (subscribed_put this fu); [by heap_simpl|].
        by apply subscribed_grow.
      - unfold o. heap_solve. }
    exists s1, fu2. split; [|split; [done|split; [done|split]]].
    + cbn [subscribe_each]. unfold subscribe, newSubscription.
      erewrite bind_ok; [exact Hrun|].
      erewrite bind_ok; [reflexivity|]. by apply construct_pending.
    + by rewrite <- app_assoc in Hs2.
    + rewrite Hlog2. by heap_simpl.
Qed.

(** X1. For every pending future whose listeners so far are subscriptions
    with the callbacks [gs], and every list [fs] of callbacks subscribed to
    it one after the other: the subscriptions call nothing, and
    [resolve(v)] returns normally after calling each callback of [gs] and
    then of [fs] exactly once with [v], in subscription order. *)
Theorem subscribers_called_once_in_order n p s F fu gs fs v :
  heap s !! F = Some (OFuture fu) →
  occurred fu = false →
  subscribed s (listeners fu) gs →
  ∃ s1 s2,
    subscribe_each p fs F s = Ok () s1 ∧
    log s1 = log s ∧
    resolve (push (S n)) F v s1 = Ok () s2 ∧
    log s2 = log s ++ Resolved F v :: calls (gs ++ fs) v.
Proof.
  intros Hfu Hocc Hs.
  destruct (subscribe_each_registers p fs F s fu gs Hfu Hocc Hs)
    as (s1 & fu1 & Hrun & Hfu1 & Hocc1 & Hs1 & Hlog1).
  eexists s1, _. split; [done|]. split; [done|]. split.
  - by apply (resolve_subscribed n F v s1 fu1 (gs ++ fs)).
  - rewrite settled_put_logged. heap_simpl'. rewrite Hlog1.
    by rewrite <- app_assoc.
Qed.

Lemma subscribers_called_witness :
  let s := MkState [OFuture (MkFuture false VUndefined [] FutureSink)] [] [] in
  ∃ s1 s2,
    subscribe_each (push 0) [7; 8] 0 s = Ok () s1 ∧
    log s1 = [] ∧
    resolve (push 1) 0 (VNum 3) s1 = Ok () s2 ∧
    log s2 = [Resolved 0 (VNum 3); Called 7 (VNum 3); Called 8 (VNum 3)].
Proof.
  intros s.
  apply (subscribers_called_once_in_order 0 (push 0) s 0
           (MkFuture false VUndefined [] FutureSink) [] [7; 8] (VNum 3));
    [reflexivity|reflexivity|apply Forall2_nil_2].
Defined.

Lemma deliver_app p ls1 ls2 v s :
  deliver p (ls1 ++ ls2) v s = (deliver p ls1 v;; deliver p ls2 v) s.
Proof.
  revert s. induction ls1 as [|o ls1 IH]; intros s; [done|].
  cbn [app deliver]. unfold mbind, M_bind in *.
  destruct (p o v s); [apply IH|done..].
Qed.

(** [resolve] on a future whose first listeners are subscriptions: the
    callbacks are called, then the next listener is pushed to. *)
Lemma resolve_subscribed_then n this v s fu ls gs o rest :
  heap s !! this = Some (OFuture fu) →
  listeners fu = ls ++ o :: rest →
  subscribed s ls gs →
  resolve (push (S n)) this v s
  = (push (S n) o v;; deliver (push (S n)) rest v)
      (logged_all (calls gs v) (settled this v fu s)).
Proof.
  intros Hfu Hls Hs.
  rewrite (resolve_settles_delivers _ (mono_push (S n)) _ _ _ _ Hfu).
  rewrite Hls, deliver_app.
  erewrite bind_ok; [reflexivity|].
  apply deliver_subscribed. rewrite settled_put_logged.
  by apply subscribed_logged, (subscribed_put this fu).
Qed.

(** X2. [subscribe(f)] on a future that has occurred calls [f] at once with
    the stored value and registers nothing: the heap only gains the
    subscription object, and a later [resolve(w)] calls the callbacks that
    were registered before the occurrence but not [f].  On a pending future
    [subscribe(f)] calls nothing and appends the subscription to the
    listeners. *)
Theorem subscribe_now_or_registers n s F fu f :
  heap s !! F = Some (OFuture fu) →
  let sub := length (heap s) in
  (occurred fu = true →
   let s' := MkState (heap s ++ [OSubscription f F]) (behaviors s)
                     (log s ++ [Called f (value fu)]) in
   subscribe (push (S n)) f F s = Ok () s' ∧
   ∀ gs w, subscribed s (listeners fu) gs →
     ∃ s'', resolve (push (S n)) F w s' = Ok () s'' ∧
            log s'' = log s' ++ Resolved F w :: calls gs w) ∧
  (occurred fu = false →
   ∀ p, subscribe p f F s
        = Ok () (MkState
                   (<[F := OFuture (with_listeners (listeners fu ++ [sub]) fu)]>
                      (heap s ++ [OSubscription f F]))
                   (behaviors s) (log s))).
Proof.
  intros Hfu sub. pose proof (lookup_lt_Some _ _ _ Hfu) as Hlt. split.
  - intros Hocc s'.
    assert (s' = logged (Called f (value fu)) (grow (OSubscription f F) s))
      as Hs' by (with_strategy transparent [logged grow] reflexivity).
    split.
    + unfold subscribe, newSubscription.
      erewrite bind_ok; [reflexivity|].
      erewrite construct_late by done.
      erewrite bind_ok; [by rewrite Hs'|].
      apply (push_subscription n _ f F). heap_solve.
    + intros gs w Hgs. eexists. split.
      * apply (resolve_subscribed n F w s' fu gs).
        -- rewrite Hs'. heap_solve.
        -- rewrite Hs'. by apply subscribed_logged, subscribed_grow.
      * rewrite settled_put_logged. heap_simpl'. by rewrite <- app_assoc.
  - intros Hocc p. unfold subscribe, newSubscription.
    erewrite bind_ok; [reflexivity|].
    erewrite construct_pending by done.
    with_strategy transparent [put grow] reflexivity.
Qed.

Lemma subscribe_now_witness :
  let s := MkState [OFuture (MkFuture true (VNum 3) [] PureFuture)] [] [] in
  subscribe (push 1) 7 0 s
  = Ok () (MkState [OFuture (MkFuture true (VNum 3) [] PureFuture);
                    OSubscription 7 0] [] [Called 7 (VNum 3)]).
Proof.
  intros s.
  apply (subscribe_now_or_registers 0 s 0
           (MkFuture true (VNum 3) [] PureFuture) 7 eq_refl); reflexivity.
Defined.

(** ** Exceptions leave through [resolve] *)

Lemma forbidden_push n s r fu v :
  heap s !! r = Some (OFuture fu) →
  (cls fu = PureFuture → push (S n) r v s = Throw PureError s) ∧
  (cls fu = FutureSink → push (S n) r v s = Throw SinkError s).
Proof.
  intros Hr. split; intros Hc; simpl; unfold push_method;
    rewrite (bind_ok _ _ _ _ _ (getObj_ok _ _ _ Hr)); by rewrite Hc.
Qed.

(** X3. If the listeners of a future are subscriptions followed by a
    [PureFuture] or a sink, then [resolve(v)] raises the error of that
    listener: the future is left occurred with [v], the callbacks before
    the failing listener have been called once each, and no listener after
    it is notified. *)
Theorem resolve_raises_at_failing_listener n s F fu ls gs x fx rest v :
  heap s !! F = Some (OFuture fu) →
  listeners fu = ls ++ x :: rest →
  subscribed s ls gs →
  heap s !! x = Some (OFuture fx) →
  cls fx = PureFuture ∨ cls fx = FutureSink →
  ∃ s',
    resolve (push (S n)) F v s
    = Throw (match cls fx with PureFuture => PureError | _ => SinkError end)
            s' ∧
    heap s' !! F = Some (OFuture (with_value v fu)) ∧
    log s' = log s ++ Resolved F v :: calls gs v.
Proof.
  intros Hfu Hls Hs Hx Hcls.
  pose proof (lookup_lt_Some _ _ _ Hfu) as Hlt.
  set (t := logged_all (calls gs v) (settled F v fu s)).
  assert (∃ fx', heap t !! x = Some (OFuture fx') ∧ cls fx' = cls fx)
    as (fx' & Hx' & Hc').
  { unfold t. rewrite settled_put_logged.
    destruct (decide (x = F)) as [->|Hne].
    - exists (with_value v fu). split; [heap_solve'|].
      by replace fx with fu by congruence.
    - exists fx. split; [heap_solve'|done]. }
  exists t. split; [|split].
  - rewrite (resolve_subscribed_then n F v s fu ls gs x rest) by done.
    fold t. unfold mbind, M_bind.
    destruct (forbidden_push n t x fx' v Hx') as [HP HS].
    destruct Hcls as [Hc|Hc]; rewrite Hc in *.
    + by rewrite HP.
    + by rewrite HS.
  - unfold t. rewrite settled_put_logged. heap_solve'.
  - unfold t. rewrite settled_put_logged. heap_simpl'.
    by rewrite <- app_assoc.
Qed.

Lemma resolve_raises_witness :
  let s := MkState [OFuture (MkFuture false VUndefined [1; 2] FutureSink);
                    OFuture (MkFuture true (VNum 0) [] PureFuture);
                    OSubscription 7 0] [] [] in
  ∃ s', resolve (push 1) 0 (VNum 3) s = Throw PureError s' ∧
        log s' = [Resolved 0 (VNum 3)].
Proof.
  intros s.
  destruct (resolve_raises_at_failing_listener 0 s 0
              (MkFuture false VUndefined [1; 2] FutureSink) [] [] 1
              (MkFuture true (VNum 0) [] PureFuture) [2] (VNum 3)
              eq_refl eq_refl (Forall2_nil_2 _ _ _) eq_refl (or_introl eq_refl))
    as (s' & Hrun & _ & Hlog).
  exists s'. split; [exact Hrun|exact Hlog].
Defined.

(** ** [Future.of], [map] and [mapTo] *)

Lemma push_mapTo n o fu parent v s :
  heap s !! o = Some (OFuture fu) →
  cls fu = MapToFuture parent →
  push (S n) o v s = resolve (push n) o (value fu) s.
Proof.
  intros Ho Hc. simpl. unfold push_method.
  rewrite (bind_ok _ _ _ _ _ (getObj_ok _ _ _ Ho)). by rewrite Hc.
Qed.

(** X4. In any state, [Future.of(v)] is a new future that has occurred with
    [v] and has no listener; [Future.of(v).map(f)] has occurred on
    construction with [f(v)], and [Future.of(v).mapTo(b)] with [b]. *)
Theorem of_map_occurs_on_construction n s v f b :
  let P := length (heap s) in
  let R := S P in
  ∃ s0 s1 s2,
    (of_ v) s = Ok P s0 ∧
    heap s0 !! P = Some (OFuture (MkFuture true v [] PureFuture)) ∧
    log s0 = log s ∧
    (p ← of_ v; map (push (S n)) f p) s = Ok R s1 ∧
    heap s1 !! R = Some (OFuture (MkFuture true (f v) [] (MapFuture f P))) ∧
    log s1 = log s ++ [Resolved R (f v)] ∧
    (p ← of_ v; mapTo (push (S n)) b p) s = Ok R s2 ∧
    heap s2 !! R = Some (OFuture (MkFuture true b [] (MapToFuture P))) ∧
    log s2 = log s ++ [Resolved R b].
Proof.
  intros P R. eexists _, _, _.
  split; [apply fresh_grows|]. split; [heap_solve|]. split; [by heap_simpl|].
  split; [|split; [|split; [|split; [|split]]]].
  - unfold of_, newPureFuture. erewrite bind_ok by apply fresh_grows.
    erewrite map_late; [|heap_solve|reflexivity]. by heap_lengths.
  - rewrite settled_put_logged. heap_solve.
  - rewrite settled_put_logged. by heap_simpl.
  - unfold of_, newPureFuture. erewrite bind_ok by apply fresh_grows.
    unfold mapTo, newMapToFuture, fresh.
    erewrite construct_late; [|heap_solve|reflexivity].
    erewrite bind_ok; [heap_lengths; reflexivity|].
    erewrite push_mapTo; [|heap_solve|reflexivity].
    erewrite resolve_no_listener; [reflexivity|heap_solve|reflexivity].
  - rewrite settled_put_logged. heap_solve.
  - rewrite settled_put_logged. by heap_simpl.
Qed.

(** X5. For every future [m] and constant [b]: if [m] has occurred,
    [m.mapTo(b)] occurs on construction with [b].  If [m] is pending,
    [m.mapTo(b)] is pending, already holds [b] in its value field, and is
    the last listener of [m]; any push to it makes it occur with [b],
    whatever the pushed value; when the other listeners of [m] are
    subscriptions, that happens within [m.resolve(v)], after their
    callbacks. *)
Theorem mapTo_occurs_with_constant n s m fu b :
  heap s !! m = Some (OFuture fu) →
  let r := length (heap s) in
  let constant occ := Some (OFuture (MkFuture occ b [] (MapToFuture m))) in
  (occurred fu = true →
   ∃ s', mapTo (push (S n)) b m s = Ok r s' ∧
         heap s' !! r = constant true ∧
         log s' = log s ++ [Resolved r b]) ∧
  (occurred fu = false →
   ∃ s', (∀ p, mapTo p b m s = Ok r s') ∧
         heap s' !! r = constant false ∧
         heap s' !! m
         = Some (OFuture (with_listeners (listeners fu ++ [r]) fu)) ∧
         (∀ v t, heap t !! r = constant false →
            ∃ t', push (S n) r v t = Ok () t' ∧
                  heap t' !! r = constant true ∧
                  log t' = log t ++ [Resolved r b]) ∧
         (∀ gs v, subscribed s (listeners fu) gs →
            ∃ s'', resolve (push (S n)) m v s' = Ok () s'' ∧
                   heap s'' !! r = constant true ∧
                   log s'' = log s ++ Resolved m v :: calls gs v
                                   ++ [Resolved r b])).
Proof.
  intros Hfu r constant. pose proof (lookup_lt_Some _ _ _ Hfu) as Hlt.
  assert (∀ k v t, heap t !! r = constant false →
            ∃ t', push (S k) r v t = Ok () t' ∧
                  heap t' !! r = constant true ∧
                  log t' = log t ++ [Resolved r b]) as Hpush.
  { intros k v t Ht. pose proof (lookup_lt_Some _ _ _ Ht) as Hltr.
    eexists. split; [|split].
    - erewrite push_mapTo; [|done|reflexivity].
      erewrite resolve_no_listener; [reflexivity|done|reflexivity].
    - rewrite settled_put_logged. heap_solve.
    - rewrite settled_put_logged. by heap_simpl. }
  split.
  - intros Hocc.
    destruct (Hpush n (value fu)
                (grow (OFuture (MkFuture false b [] (MapToFuture m))) s))
      as (s' & Hrun & Hr & Hlog); [by apply lookup_grow_eq|].
    exists s'. split; [|split; [done|]].
    + unfold mapTo, newMapToFuture, fresh.
      erewrite construct_late by done. by erewrite bind_ok.
    + rewrite Hlog. by heap_simpl.
  - intros Hocc. eexists. split; [|split; [|split; [|split]]].
    + intros p. by apply construct_pending.
    + heap_solve.
    + heap_solve.
    + intros v t Ht. by apply Hpush.
    + intros gs v Hgs.
      set (s' := put m _ _).
      set (t := logged_all (calls gs v)
                  (settled m v
                     (with_listeners (listeners fu ++ [r]) fu) s')).
      destruct (Hpush n v t) as (s'' & Hrun & Hr & Hlog).
      { unfold t, s'. rewrite settled_put_logged. heap_solve'. }
      exists s''. split; [|split; [done|]].
      * erewrite (resolve_subscribed_then n m v s' _ (listeners fu) gs r []);
          [|unfold s'; heap_solve|reflexivity|].
        -- fold t. erewrite bind_ok by exact Hrun. reflexivity.
        -- unfold s'. apply (subscribed_put m fu); [by heap_simpl|].
           by apply subscribed_grow.
      * rewrite Hlog. unfold t, s'. rewrite settled_put_logged. heap_simpl'.
        by rewrite <- !app_assoc.
Qed.

Lemma mapTo_witness :
  let s := MkState [OFuture (MkFuture false VUndefined [] FutureSink)] [] [] in
  ∃ s', (∀ p, mapTo p (VNum 9) 0 s = Ok 1 s') ∧
    ∃ s'', resolve (push 1) 0 (VNum 4) s' = Ok () s'' ∧
           heap s'' !! 1
           = Some (OFuture (MkFuture true (VNum 9) [] (MapToFuture 0))) ∧
           log s'' = [Resolved 0 (VNum 4); Resolved 1 (VNum 9)].
Proof.
  intros s.
  destruct (mapTo_occurs_with_constant 0 s 0
              (MkFuture false VUndefined [] FutureSink) (VNum 9) eq_refl)
    as [_ Hpending].
  destruct (Hpending eq_refl) as (s' & Hnew & _ & _ & _ & Hres).
  exists s'. split; [exact Hnew|].
  exact (Hres [] (VNum 4) (Forall2_nil_2 _ _ _)).
Defined.

(** X6. The constant of a [mapTo] future lives in its value field, which
    [resolve] overwrites: if a pending [mapTo] future is resolved directly
    with [w], a later push from its parent resolves it again with [w], not
    with the constant it was built with. *)
Theorem mapTo_constant_is_the_value_field n r m b w v t :
  heap t !! r = Some (OFuture (MkFuture false b [] (MapToFuture m))) →
  ∃ t1 t2,
    resolve (push n) r w t = Ok () t1 ∧
    push (S n) r v t1 = Ok () t2 ∧
    heap t2 !! r = Some (OFuture (MkFuture true w [] (MapToFuture m))) ∧
    log t2 = log t ++ [Resolved r w; Resolved r w].
Proof.
  intros Hr. pose proof (lookup_lt_Some _ _ _ Hr) as Hlt.
  eexists _, _. split; [|split; [|split]].
  - erewrite resolve_no_listener; [reflexivity|done|reflexivity].
  - rewrite settled_put_logged.
    erewrite push_mapTo; [|heap_solve|reflexivity].
    erewrite resolve_no_listener; [reflexivity|heap_solve|reflexivity].
  - rewrite !settled_put_logged. heap_solve.
  - rewrite !settled_put_logged. heap_simpl. by rewrite <- !app_assoc.
Qed.

Lemma mapTo_constant_witness :
  let t := MkState [OFuture (MkFuture false (VNum 9) [] (MapToFuture 5))]
                   [] [] in
  ∃ t1 t2,
    resolve (push 0) 0 (VNum 1) t = Ok () t1 ∧
    push 1 0 (VNum 2) t1 = Ok () t2 ∧
    heap t2 !! 0
    = Some (OFuture (MkFuture true (VNum 1) [] (MapToFuture 5))) ∧
    log t2 = [Resolved 0 (VNum 1); Resolved 0 (VNum 1)].
Proof.
  intros t.
  apply (mapTo_constant_is_the_value_field 0 0 5 (VNum 9) (VNum 1) (VNum 2) t).
  reflexivity.
Defined.

(** ** The monad laws of [chain] and [Future.of] *)

(** The first push to a chain future whose closure returns [Future.of(w)]. *)
Lemma push_chain_of n C F f v w t :
  heap t !! C
  = Some (OFuture (MkFuture false VUndefined [] (ChainFuture f F false))) →
  f v = EOf w →
  ∃ t', push (S (S n)) C v t = Ok () t' ∧
        heap t' !! C
        = Some (OFuture (MkFuture true w [] (ChainFuture f F true))) ∧
        (∀ r, r < length (heap t) → r ≠ C → heap t' !! r = heap t !! r) ∧
        log t' = log t ++ [Resolved C w].
Proof.
  intros HC Hfv. pose proof (lookup_lt_Some _ _ _ HC) as Hlt.
  eexists. split; [|split; [|split]].
  - erewrite push_chain_first; [|done|reflexivity].
    rewrite Hfv. simpl build. unfold of_, newPureFuture.
    erewrite bind_ok by apply fresh_grows.
    erewrite listen_late; [|heap_solve|reflexivity].
    erewrite push_chain_second; [|heap_solve|reflexivity].
    erewrite resolve_no_listener; [reflexivity|heap_solve|reflexivity].
  - rewrite settled_put_logged. heap_solve.
  - intros r Hr HrC. rewrite settled_put_logged. by heap_simpl.
  - rewrite settled_put_logged. by heap_simpl.
Qed.

(** X7. Right identity: for every future [m], [m.chain(Future.of)] occurs
    when [m] does and with the same value.  If [m] has occurred it occurs
    on construction with the value of [m]; if [m] is pending and its other
    listeners are subscriptions, it is pending after construction and
    occurs within [m.resolve(v)], with [v]. *)
Theorem chain_of_is_identity n s m fu :
  heap s !! m = Some (OFuture fu) →
  let C := length (heap s) in
  let chained occ po v :=
    Some (OFuture (MkFuture occ v [] (ChainFuture EOf m po))) in
  (occurred fu = true →
   ∃ s', chain (push (S (S n))) EOf m s = Ok C s' ∧
         heap s' !! C = chained true true (value fu) ∧
         log s' = log s ++ [Resolved C (value fu)]) ∧
  (occurred fu = false →
   ∃ s', (∀ p, chain p EOf m s = Ok C s') ∧
         heap s' !! C = chained false false VUndefined ∧
         ∀ gs v, subscribed s (listeners fu) gs →
           ∃ s'', resolve (push (S (S n))) m v s' = Ok () s'' ∧
                  heap s'' !! C = chained true true v ∧
                  (∃ fm, heap s'' !! m = Some (OFuture fm) ∧
                         occurred fm = true ∧ value fm = v) ∧
                  log s'' = log s ++ Resolved m v :: calls gs v
                                  ++ [Resolved C v]).
Proof.
  intros Hfu C chained. pose proof (lookup_lt_Some _ _ _ Hfu) as Hlt.
  set (o := OFuture (MkFuture false VUndefined [] (ChainFuture EOf m false))).
  split.
  - intros Hocc.
    destruct (push_chain_of n C m EOf (value fu) (value fu) (grow o s))
      as (s' & Hrun & HC & _ & Hlog); [by apply lookup_grow_eq|done|].
    exists s'. split; [|split; [done|]].
    + unfold chain, newChainFuture, fresh.
      erewrite construct_late by done. by erewrite bind_ok.
    + rewrite Hlog. by heap_simpl.
  - intros Hocc. eexists. split; [|split].
    + intros p. by apply construct_pending.
    + heap_solve.
    + intros gs v Hgs.
      set (s' := put m _ _).
      set (t := logged_all (calls gs v)
                  (settled m v
                     (with_listeners (listeners fu ++ [C]) fu) s')).
      destruct (push_chain_of n C m EOf v v t)
        as (s'' & Hrun & HC & Hframe & Hlog); [|done|].
      { unfold t, s'. rewrite settled_put_logged. heap_solve'. }
      exists s''. split; [|split; [done|split]].
      * erewrite (resolve_subscribed_then (S n) m v s' _ (listeners fu) gs C []);
          [|unfold s'; heap_solve|reflexivity|].
        -- fold t. erewrite bind_ok by exact Hrun. reflexivity.
        -- unfold s'. apply (subscribed_put m fu); [by heap_simpl|].
           by apply subscribed_grow.
      * eexists. rewrite Hframe.
        -- split; [unfold t, s'; rewrite settled_put_logged; heap_solve'|].
           done.
        -- unfold t, s'. rewrite settled_put_logged. heap_simpl'.
           heap_len.
        -- unfold C. lia.
      * rewrite Hlog. unfold t, s'. rewrite settled_put_logged. heap_simpl'.
        by rewrite <- !app_assoc.
Qed.

Lemma chain_of_witness :
  let s := MkState [OFuture (MkFuture false VUndefined [] FutureSink)] [] [] in
  ∃ s', (∀ p, chain p EOf 0 s = Ok 1 s') ∧
    ∃ s'', resolve (push 2) 0 (VNum 4) s' = Ok () s'' ∧
           heap s'' !! 1
           = Some (OFuture (MkFuture true (VNum 4) []
                     (ChainFuture EOf 0 true))).
Proof.
  intros s.
  destruct (chain_of_is_identity 0 s 0
              (MkFuture false VUndefined [] FutureSink) eq_refl)
    as [_ Hpending].
  destruct (Hpending eq_refl) as (s' & Hnew & _ & Hres).
  exists s'. split; [exact Hnew|].
  destruct (Hres [] (VNum 4) (Forall2_nil_2 _ _ _)) as (s'' & Hrun & HC & _).
  exists s''. split; [exact Hrun|exact HC].
Defined.

(** X8. Left identity: in any state, [Future.of(a).chain(f)] occurs when
    the future [f(a)] does and with its value.  If [f(a)] is
    [Future.of(w)] or an existing future that has occurred, the chain has
    occurred on construction with that value; if [f(a)] is an existing
    pending future [Q], the chain is pending and the last listener of [Q],
    and when the other listeners of [Q] are subscriptions it occurs within
    [Q.resolve(w)], with [w]. *)
Theorem of_chain_is_application n s a f :
  let P := length (heap s) in
  let C := S P in
  let chained occ v :=
    Some (OFuture (MkFuture occ v [] (ChainFuture f P true))) in
  let built := p ← of_ a; chain (push (S (S n))) f p in
  (∀ w, f a = EOf w →
     ∃ s', built s = Ok C s' ∧ heap s' !! C = chained true w) ∧
  (∀ Q fq, f a = EFuture Q →
     heap s !! Q = Some (OFuture fq) → occurred fq = true →
     ∃ s', built s = Ok C s' ∧ heap s' !! C = chained true (value fq)) ∧
  (∀ Q fq, f a = EFuture Q →
     heap s !! Q = Some (OFuture fq) → occurred fq = false →
     ∃ s', built s = Ok C s' ∧
           heap s' !! C = chained false VUndefined ∧
           heap s' !! Q
           = Some (OFuture (with_listeners (listeners fq ++ [C]) fq)) ∧
           ∀ gs w, subscribed s (listeners fq) gs →
             ∃ s'', resolve (push (S n)) Q w s' = Ok () s'' ∧
                    heap s'' !! C = chained true w).
Proof.
  intros P C chained built.
  set (s0 := grow (OFuture (MkFuture true a [] PureFuture)) s).
  set (o := OFuture (MkFuture false VUndefined [] (ChainFuture f P false))).
  assert (built s
          = (push (S (S n)) C a;; mret C) (grow o s0)) as Hbuilt.
  { unfold built, of_, newPureFuture.
    erewrite bind_ok by apply fresh_grows. fold s0.
    unfold chain, newChainFuture, fresh.
    erewrite (construct_late _ _ P s0); [|unfold s0; heap_solve|reflexivity].
    unfold s0. by heap_lengths. }
  assert (heap (grow o s0) !! C
          = Some (OFuture (MkFuture false VUndefined []
                    (ChainFuture f P false)))) as HC.
  { unfold s0. heap_solve. }
  destruct (push_chain_starts n C P f a (grow o s0) HC)
    as (Hlate & Hof & Hpending).
  split; [|split].
  - intros w Hfa. destruct (Hof w Hfa) as (s' & Hrun & HC').
    exists s'. split; [|done]. rewrite Hbuilt. by erewrite bind_ok.
  - intros Q fq Hfa HQ Hoq. pose proof (lookup_lt_Some _ _ _ HQ) as HltQ.
    destruct (Hlate Q fq Hfa) as (s' & Hrun & HC');
      [unfold C, P; lia|unfold s0; heap_solve|done|].
    exists s'. split; [|done]. rewrite Hbuilt. by erewrite bind_ok.
  - intros Q fq Hfa HQ Hoq. pose proof (lookup_lt_Some _ _ _ HQ) as HltQ.
    eexists. split; [|split; [|split]].
    + rewrite Hbuilt.
      erewrite bind_ok; [reflexivity|].
      erewrite push_chain_first; [|done|reflexivity].
      rewrite Hfa. simpl build.
      erewrite bind_ok by reflexivity.
      erewrite listen_pending; [reflexivity|unfold s0; heap_solve|done].
    + unfold s0. heap_solve.
    + unfold s0. heap_solve.
    + intros gs w Hgs. eexists. split.
      * erewrite (resolve_subscribed_then n Q w _ _ (listeners fq) gs C []);
          [|unfold s0; heap_solve|reflexivity|].
        -- erewrite bind_ok; [reflexivity|].
           rewrite settled_put_logged.
           erewrite push_chain_second;
             [|unfold s0; heap_solve'|reflexivity].
           erewrite resolve_no_listener;
             [reflexivity|unfold s0; heap_solve'|reflexivity].
        -- apply (subscribed_put Q fq); [unfold s0; by heap_simpl|].
           apply (subscribed_put C (MkFuture false VUndefined []
                                      (ChainFuture f P false)));
             [done|].
           unfold s0. by apply subscribed_grow, subscribed_grow.
      * rewrite !settled_put_logged. unfold s0. heap_solve'.
Qed.

Lemma of_chain_witness :
  ∃ s', (p ← of_ (VNum 2); chain (push 2) (λ v, EOf (times2 v)) p) empty_state
        = Ok 1 s' ∧
        heap s' !! 1
        = Some (OFuture (MkFuture true (VNum 4) []
                  (ChainFuture (λ v, EOf (times2 v)) 0 true))).
Proof.
  destruct (of_chain_is_application 0 empty_state (VNum 2)
              (λ v, EOf (times2 v))) as (Hof & _ & _).
  exact (Hof (VNum 4) eq_refl).
Defined.

(** ** A lift counts pushes *)

Lemma push_each_app p o xs1 xs2 s s1 :
  push_each p o xs1 s = Ok () s1 →
  push_each p o (xs1 ++ xs2) s = push_each p o xs2 s1.
Proof.
  revert s. induction xs1 as [|x xs1 IH]; intros s; simpl.
  - by intros [= ->].
  - unfold mbind, M_bind. destruct (p o x s); [|done..]. apply IH.
Qed.

(** Pushes that do not complete the count only move the counter. *)
Lemma push_each_counts n L f slots l xs : ∀ d fu t,
  heap t !! L = Some (OFuture fu) →
  cls fu = LiftFuture f slots d l →
  l ≤ d ∨ d + length xs < l →
  ∃ t',
    push_each (push (S n)) L xs t = Ok () t' ∧
    heap t' !! L
    = Some (OFuture (with_cls (LiftFuture f slots (d + length xs) l) fu)) ∧
    (∀ r, r ≠ L → heap t' !! r = heap t !! r) ∧
    log t' = log t.
Proof.
  induction xs as [|x xs IH]; intros d fu t HL Hc Hd.
  - exists t. split; [done|]. split; [|done].
    rewrite HL, Nat.add_0_r. do 2 f_equal. destruct fu; simpl in *.
    by subst.
  - pose proof (lookup_lt_Some _ _ _ HL) as Hlt. simpl in Hd.
    destruct (IH (S d) (with_cls (LiftFuture f slots (S d) l) fu)
                (put L (with_cls (LiftFuture f slots (S d) l) fu) t))
      as (t' & Hrun & HL' & Hframe & Hlog);
      [by heap_simpl|done|lia|].
    exists t'. split; [|split; [|split]].
    + cbn [push_each].
      erewrite bind_ok; [exact Hrun|].
      eapply push_lift_counts; [done..|lia].
    + rewrite HL'. simpl. by rewrite Nat.add_succ_r.
    + intros r Hr. rewrite Hframe by done. by heap_simpl.
    + by rewrite Hlog, log_put.
Qed.

(** X9. A lift fires on the count of the pushes it receives.  In any state
    where a lift over the parents [ps] is as constructed and its parents
    hold the values [ws]: after any sequence [xs] of pushes, the lift has
    been resolved exactly once, with [f] of the values of the parents, if
    there is at least one parent and [xs] has at least as many pushes as
    there are parents, and it is pending and was not resolved otherwise.
    In particular a lift over no parent never fires, and pushes beyond the
    count never fire it again. *)
Theorem lift_fires_on_the_count n L f ps ws xs t :
  L ∉ ps →
  heap t !! L
  = Some (OFuture (MkFuture false VUndefined []
            (LiftFuture f (SFuture <$> ps) 0 (length ps)))) →
  (∀ r, r ∈ ps → ∃ fu, heap t !! r = Some (OFuture fu) ∧ value fu = ws r) →
  let fires := bool_decide (1 ≤ length ps ≤ length xs) in
  ∃ t' fu',
    push_each (push (S n)) L xs t = Ok () t' ∧
    heap t' !! L = Some (OFuture fu') ∧
    occurred fu' = fires ∧
    (fires = true → value fu' = fn_apply f (ws <$> ps)) ∧
    log t' = log t ++ (if fires
                       then [Resolved L (fn_apply f (ws <$> ps))]
                       else []).
Proof.
  intros Hfresh HL Hvals fires.
  set (fu0 := MkFuture false VUndefined []
                (LiftFuture f (SFuture <$> ps) 0 (length ps))) in *.
  destruct (decide (1 ≤ length ps ≤ length xs)) as [Hyes|Hno].
  - unfold fires. rewrite bool_decide_eq_true_2 by done.
    assert (xs = take (length ps - 1) xs
                 ++ default VUndefined (xs !! (length ps - 1))
                 :: drop (length ps) xs) as Hsplit.
    { destruct (lookup_lt_is_Some_2 xs (length ps - 1)) as [x Hx]; [lia|].
      rewrite Hx. simpl.
      rewrite <- (take_drop_middle xs (length ps - 1) x) at 1 by done.
      do 3 f_equal. lia. }
    set (xs1 := take (length ps - 1) xs) in *.
    set (x := default VUndefined (xs !! (length ps - 1))) in *.
    set (xs2 := drop (length ps) xs) in *.
    assert (length xs1 = length ps - 1) as Hlen1.
    { unfold xs1. rewrite length_take. lia. }
    destruct (push_each_counts n L f (SFuture <$> ps) (length ps) xs1
                0 fu0 t HL eq_refl) as (t1 & Hrun1 & HL1 & Hframe1 & Hlog1);
      [right; lia|].
    destruct (push_lift_completes n L f ps ws Hfresh (length xs1) x t1)
      as (t2 & Hrun2 & HL2 & Hlog2).
    { by rewrite HL1. }
    { lia. }
    { intros r Hr. rewrite Hframe1 by (intros ->; done). by apply Hvals. }
    destruct (push_each_counts n L f (SValue <$> (ws <$> ps)) (length ps) xs2
                (S (length xs1)) _ t2 HL2 eq_refl)
      as (t3 & Hrun3 & HL3 & _ & Hlog3); [left; lia|].
    exists t3. eexists. split; [|split; [exact HL3|split; [done|split]]].
    + rewrite Hsplit. rewrite (push_each_app _ _ _ _ _ _ Hrun1).
      cbn [push_each]. by erewrite bind_ok by exact Hrun2.
    + done.
    + by rewrite Hlog3, Hlog2, Hlog1.
  - unfold fires. rewrite bool_decide_eq_false_2 by done.
    destruct (push_each_counts n L f (SFuture <$> ps) (length ps) xs
                0 fu0 t HL eq_refl) as (t1 & Hrun1 & HL1 & _ & Hlog1);
      [lia|].
    exists t1. eexists. split; [done|]. split; [exact HL1|].
    split; [done|]. split; [done|]. by rewrite Hlog1, app_nil_r.
Qed.

Lemma lift_count_witness :
  let t := MkState [OFuture (MkFuture false (VNum 5) [] FutureSink);
                    OFuture (MkFuture false VUndefined []
                               (LiftFuture add3 [SFuture 0; SFuture 0;
                                                 SFuture 0] 0 3))] [] [] in
  ∃ t' fu',
    push_each (push 1) 1 [VNum 0; VNum 0; VNum 0; VNum 0] t = Ok () t' ∧
    heap t' !! 1 = Some (OFuture fu') ∧
    occurred fu' = true ∧
    log t' = [Resolved 1 (VNum 15)].
Proof.
  intros t.
  destruct (lift_fires_on_the_count 0 1 add3 [0; 0; 0] (λ _, VNum 5)
              [VNum 0; VNum 0; VNum 0; VNum 0] t)
    as (t' & fu' & Hrun & HL & Hocc & _ & Hlog).
  - intros Hin. repeat (apply elem_of_cons in Hin as [Hin|Hin]; [done|]).
    by apply elem_of_nil in Hin.
  - reflexivity.
  - intros r Hr. exists (MkFuture false (VNum 5) [] FutureSink).
    repeat (apply elem_of_cons in Hr as [->|Hr]; [done|]).
    by apply elem_of_nil in Hr.
  - exists t', fu'. auto.
Defined.

(** ** A lift counts resolutions, not parents *)

(** The loop that collects the values writes to the lift only. *)
Lemma collect_touches_lift_only L f d l k : ∀ i s s',
  for_loop k i (λ i,
    xs ← lift_slots L;
    match xs !! i with
    | Some x =>
        w ← slot_value x;
        fu' ← getFuture L;
        setFuture L (with_cls (LiftFuture f (<[i := SValue w]> xs) d l) fu')
    | None => throw TypeError
    end) s = Ok () s' →
  ∀ q, q ≠ L → heap s' !! q = heap s !! q.
Proof.
  induction k as [|k IH]; intros i s s' Hrun q Hq.
  - by injection Hrun as ->.
  - cbn [for_loop] in Hrun. unfold mbind at 1, M_bind at 1 in Hrun.
    match type of Hrun with
    | match ?body with _ => _ end = _ => destruct body as [[] s1| |] eqn:Hbody
    end; [|done..].
    rewrite (IH _ _ _ Hrun q Hq).
    unfold lift_slots, slot_value, getFuture in Hbody.
    unfold getObj, setFuture, throw, mbind, M_bind, mret, M_ret in Hbody.
    repeat case_match; simplify_eq; simpl;
      by rewrite ?list_lookup_insert_ne.
Qed.

Section LiftCount.
Variables (n : nat) (L : ref) (f : jsfun) (ps : list ref).
Hypothesis L_fresh : L ∉ ps.

Lemma attached_counts d cur r v s :
  attached L f ps d cur s →
  r ∈ ps →
  S d ≠ length ps →
  ∃ s',
    resolve (push (S n)) r v s = Ok () s' ∧
    attached L f ps (S d) (stored_after cur [(r, v)]) s' ∧
    log s' = log s ++ [Resolved r v].
Proof using L_fresh.
  intros [HL Hps] Hr Hd.
  destruct (Hps r Hr) as (fr & Hfr & Hlr & Hvr).
  assert (r ≠ L) as HrL by (intros ->; done).
  pose proof (lookup_lt_Some _ _ _ HL) as HltL.
  pose proof (lookup_lt_Some _ _ _ Hfr) as Hltr.
  eexists. split; [|split].
  - erewrite resolve_one_listener; [|done..].
    rewrite settled_put_logged.
    erewrite push_lift_counts; [reflexivity|heap_solve|reflexivity|done].
  - split; [heap_solve|].
    intros q Hq. destruct (Hps q Hq) as (fq & Hfq & Hlq & Hvq).
    assert (q ≠ L) by (intros ->; done).
    unfold stored_after. simpl.
    destruct (decide (q = r)) as [->|Hne].
    + eexists. split; [heap_solve|]. split; [|done].
      by replace fq with fr in * by congruence.
    + exists fq. split; [heap_solve|done].
  - by heap_simpl.
Qed.

Lemma attached_fires d cur r v s :
  attached L f ps d cur s →
  r ∈ ps →
  S d = length ps →
  let result := fn_apply f (stored_after cur [(r, v)] <$> ps) in
  ∃ s',
    resolve (push (S n)) r v s = Ok () s' ∧
    fired L f ps result s' ∧
    log s' = log s ++ [Resolved r v; Resolved L result].
Proof using L_fresh.
  intros [HL Hps] Hr Hd result.
  destruct (Hps r Hr) as (fr & Hfr & Hlr & Hvr).
  assert (r ≠ L) as HrL by (intros ->; done).
  pose proof (lookup_lt_Some _ _ _ HL) as HltL.
  pose proof (lookup_lt_Some _ _ _ Hfr) as Hltr.
  set (s1 := put L (with_cls
                      (LiftFuture f (SFuture <$> ps) (S d) (length ps))
                      (MkFuture false VUndefined []
                         (LiftFuture f (SFuture <$> ps) d (length ps))))
               (settled r v fr s)).
  assert (∀ q, q ∈ ps →
            ∃ fq, heap s1 !! q = Some (OFuture fq) ∧ listeners fq = [L] ∧
                  value fq = stored_after cur [(r, v)] q) as Hps1.
  { intros q Hq. assert (q ≠ L) by (intros ->; done).
    destruct (Hps q Hq) as (fq & Hfq & Hlq & Hvq).
    unfold stored_after, s1. simpl. rewrite settled_put_logged.
    destruct (decide (q = r)) as [->|Hne].
    - eexists. split; [heap_solve|]. split; [|done].
      by replace fq with fr in * by congruence.
    - exists fq. split; [heap_solve|done]. }
  destruct (collect_values L f (S d) (length ps)
              (stored_after cur [(r, v)]) false VUndefined [] ps [] s1)
    as (s2 & Hrun & HL2 & Hlog2).
  { unfold s1. rewrite settled_put_logged. heap_simpl. reflexivity. }
  { intros q Hq. assert (q ≠ L) by (intros ->; done). split; [done|].
    destruct (Hps1 q Hq) as (fq & Hfq & _ & Hvq). eauto. }
  simpl in HL2, Hrun.
  pose proof (collect_touches_lift_only _ _ _ _ _ _ _ _ Hrun) as Hframe.
  eexists. split; [|split].
  - erewrite resolve_one_listener; [|done..].
    erewrite push_lift_fires;
      [|rewrite settled_put_logged; heap_solve|reflexivity|done].
    fold s1. erewrite bind_ok by exact Hrun.
    erewrite bind_ok by (by eapply lift_slots_ok).
    erewrite resolve_no_listener; [reflexivity|done..].
  - split.
    + eexists _, (S d). split; [|lia].
      rewrite settled_put_logged. heap_simpl.
      rewrite lookup_put_eq; [|done|by eapply lookup_lt_Some].
      unfold with_value. simpl. by rewrite slot_arg_values.
    + intros q Hq. assert (q ≠ L) by (intros ->; done).
      destruct (Hps1 q Hq) as (fq & Hfq & Hlq & _).
      exists fq. split; [|done].
      rewrite settled_put_logged. heap_simpl. by rewrite Hframe.
  - rewrite settled_put_logged. heap_simpl. rewrite Hlog2. unfold s1.
    rewrite settled_put_logged. heap_simpl.
    rewrite slot_arg_values. by rewrite <- !app_assoc.
Qed.

Lemma fired_stays result r v s :
  fired L f ps result s →
  r ∈ ps →
  ∃ s',
    resolve (push (S n)) r v s = Ok () s' ∧
    fired L f ps result s' ∧
    log s' = log s ++ [Resolved r v].
Proof using L_fresh.
  intros [(slots & d & HL & Hd) Hps] Hr.
  destruct (Hps r Hr) as (fr & Hfr & Hlr).
  assert (r ≠ L) as HrL by (intros ->; done).
  pose proof (lookup_lt_Some _ _ _ HL) as HltL.
  pose proof (lookup_lt_Some _ _ _ Hfr) as Hltr.
  eexists. split; [|split].
  - erewrite resolve_one_listener; [|done..].
    rewrite settled_put_logged.
    erewrite push_lift_counts; [reflexivity|heap_solve|reflexivity|lia].
  - split.
    + exists slots, (S d). split; [heap_solve|lia].
    + intros q Hq. destruct (Hps q Hq) as (fq & Hfq & Hlq).
      assert (q ≠ L) by (intros ->; done).
      destruct (decide (q = r)) as [->|Hne].
      * eexists. split; [heap_solve|].
        by replace fq with fr in * by congruence.
      * exists fq. split; [heap_solve|done].
  - by heap_simpl.
Qed.

Lemma attached_counts_each rs : ∀ d cur s,
  attached L f ps d cur s →
  Forall (λ rv, rv.1 ∈ ps) rs →
  d + length rs < length ps →
  ∃ s' evs,
    resolve_with (push (S n)) rs s = Ok () s' ∧
    attached L f ps (d + length rs) (stored_after cur rs) s' ∧
    log s' = log s ++ evs ∧ resolutions L evs = [].
Proof using L_fresh.
  induction rs as [|[r v] rs IH]; intros d cur s Hat Hin Hlen.
  - exists s, []. rewrite Nat.add_0_r, app_nil_r. done.
  - apply Forall_cons in Hin as [Hr Hin]. simpl in Hr, Hlen.
    destruct (attached_counts d cur r v s Hat Hr) as (s1 & Hrun1 & Hat1 & Hlog1);
      [lia|].
    destruct (IH (S d) _ s1 Hat1 Hin) as (s2 & evs & Hrun2 & Hat2 & Hlog2 & Hres);
      [lia|].
    exists s2, (Resolved r v :: evs). split; [|split; [|split]].
    + cbn [resolve_with]. by erewrite bind_ok by exact Hrun1.
    + simpl. by rewrite Nat.add_succ_r.
    + rewrite Hlog2, Hlog1. by rewrite <- app_assoc.
    + simpl. destruct (Nat.eqb_spec L r) as [->|]; [done|exact Hres].
Qed.

Lemma fired_stays_each result rs : ∀ s,
  fired L f ps result s →
  Forall (λ rv, rv.1 ∈ ps) rs →
  ∃ s' evs,
    resolve_with (push (S n)) rs s = Ok () s' ∧
    fired L f ps result s' ∧
    log s' = log s ++ evs ∧ resolutions L evs = [].
Proof using L_fresh.
  induction rs as [|[r v] rs IH]; intros s Hf Hin.
  - exists s, []. by rewrite app_nil_r.
  - apply Forall_cons in Hin as [Hr Hin]. simpl in Hr.
    destruct (fired_stays result r v s Hf Hr) as (s1 & Hrun1 & Hf1 & Hlog1).
    destruct (IH s1 Hf1 Hin) as (s2 & evs & Hrun2 & Hf2 & Hlog2 & Hres).
    exists s2, (Resolved r v :: evs). split; [|split; [done|split]].
    + cbn [resolve_with]. by erewrite bind_ok by exact Hrun1.
    + rewrite Hlog2, Hlog1. by rewrite <- app_assoc.
    + simpl. destruct (Nat.eqb_spec L r) as [->|]; [done|exact Hres].
Qed.
End LiftCount.

Lemma resolve_with_app p rs1 rs2 s s1 :
  resolve_with p rs1 s = Ok () s1 →
  resolve_with p (rs1 ++ rs2) s = resolve_with p rs2 s1.
Proof.
  revert s. induction rs1 as [|[r v] rs1 IH]; intros s; simpl.
  - by intros [= ->].
  - unfold mbind, M_bind. destruct (resolve p r v s); [|done..]. apply IH.
Qed.

(** X10. A lift counts the resolutions of its parents, not the parents.
    For a lift over [n >= 1] distinct pending parents without other
    listeners, and any sequence [rs] of resolutions of parents, repetitions
    allowed: if [rs] has fewer than [n] resolutions the lift is pending;
    otherwise it has fired, at the [n]-th resolution, exactly once, with
    [f] of the values the parents held right after that resolution, also
    when some parent had not occurred yet. *)
Theorem lift_fires_at_the_nth_resolution n f ps rs s :
  ps ≠ [] →
  NoDup ps →
  (∀ r, r ∈ ps →
        ∃ fu, heap s !! r = Some (OFuture fu) ∧
              occurred fu = false ∧ listeners fu = []) →
  Forall (λ rv, rv.1 ∈ ps) rs →
  let L := length (heap s) in
  let result :=
    fn_apply f (stored_after (stored s) (take (length ps) rs) <$> ps) in
  ∃ s0 s' fu evs,
    newLiftFuture (push n) f ps s = Ok L s0 ∧
    resolve_with (push (S n)) rs s0 = Ok () s' ∧
    heap s' !! L = Some (OFuture fu) ∧
    log s' = log s ++ evs ∧
    (length rs < length ps →
       occurred fu = false ∧ resolutions L evs = []) ∧
    (length ps ≤ length rs →
       occurred fu = true ∧ value fu = result ∧
       resolutions L evs = [result]).
Proof.
  intros Hne Hnd Hall Hrs L result.
  assert (L ∉ ps) as Hfresh.
  { intros Hin. destruct (Hall _ Hin) as (fu & Hfu & _).
    apply lookup_lt_Some in Hfu. unfold L in Hfu. lia. }
  destruct (newLiftFuture_registers (push n) f ps s Hnd)
    as (s0 & Hnew & HL0 & Hreg0 & Hlog0).
  { intros r Hr. destruct (Hall r Hr) as (fu & ? & ? & _). eauto. }
  assert (attached L f ps 0 (stored s) s0) as Hat.
  { split; [done|]. intros r Hr.
    destruct (Hall r Hr) as (fu & Hfu & Hocc & Hls).
    eexists. split; [by apply Hreg0|]. simpl. rewrite Hls.
    split; [done|]. unfold stored. by rewrite Hfu. }
  exists s0.
  destruct (decide (length rs < length ps)) as [Hshort|Hlong].
  - destruct (attached_counts_each n L f ps Hfresh rs 0 (stored s) s0 Hat Hrs)
      as (s' & evs & Hrun & [HL' _] & Hlog & Hres); [lia|].
    eexists s', _, evs. split; [done|]. split; [done|].
    split; [exact HL'|]. split; [by rewrite Hlog, Hlog0|].
    split; [done|lia].
  - assert (length ps ≠ 0) by (by destruct ps).
    destruct (lookup_lt_is_Some_2 rs (length ps - 1)) as [[r v] Hrv]; [lia|].
    pose proof (take_drop_middle rs (length ps - 1) (r, v) Hrv) as Hsplit.
    set (rs1 := take (length ps - 1) rs) in *.
    set (rs2 := drop (S (length ps - 1)) rs) in *.
    assert (length rs1 = length ps - 1) as Hlen1.
    { unfold rs1. rewrite length_take. lia. }
    assert (take (length ps) rs = rs1 ++ [(r, v)]) as Htake.
    { rewrite <- Hsplit.
      rewrite take_app_ge by lia.
      replace (length ps - length rs1) with 1 by lia. done. }
    rewrite <- Hsplit in Hrs.
    apply Forall_app in Hrs as [Hrs1 Hrs2].
    apply Forall_cons in Hrs2 as [Hr Hrs2]. simpl in Hr.
    destruct (attached_counts_each n L f ps Hfresh rs1 0 (stored s) s0 Hat Hrs1)
      as (s1 & evs1 & Hrun1 & Hat1 & Hlog1 & Hres1); [lia|].
    destruct (attached_fires n L f ps Hfresh _ _ r v s1 Hat1 Hr)
      as (s2 & Hrun2 & Hf2 & Hlog2); [simpl; lia|].
    destruct (fired_stays_each n L f ps Hfresh _ rs2 s2 Hf2 Hrs2)
      as (s3 & evs3 & Hrun3 & [(slots & d & HL3 & _) _] & Hlog3 & Hres3).
    assert (stored_after (stored_after (stored s) rs1) [(r, v)]
            = stored_after (stored s) (take (length ps) rs)) as Hst.
    { rewrite Htake. unfold stored_after. by rewrite foldl_app. }
    rewrite Hst in *. fold result in HL3, Hlog2.
    eexists s3, _, (evs1 ++ [Resolved r v; Resolved L result] ++ evs3).
    split; [done|]. split; [|split; [exact HL3|split; [|split]]].
    + rewrite <- Hsplit. rewrite (resolve_with_app _ _ _ _ _ Hrun1).
      cbn [resolve_with]. by erewrite bind_ok by exact Hrun2.
    + rewrite Hlog3, Hlog2, Hlog1, Hlog0. by rewrite <- !app_assoc.
    + lia.
    + intros _. split; [done|]. split; [done|].
      rewrite !resolutions_app, Hres1, Hres3. simpl.
      rewrite Nat.eqb_refl.
      destruct (Nat.eqb_spec L r) as [->|]; [done|]. done.
Qed.

Lemma lift_nth_resolution_witness :
  ∃ s0 s' fu,
    newLiftFuture (push 0) add3 [0; 1; 2] three_sinks = Ok 3 s0 ∧
    resolve_with (push 1) [(0, VNum 1); (0, VNum 2); (1, VNum 3)] s0
      = Ok () s' ∧
    heap s' !! 3 = Some (OFuture fu) ∧
    occurred fu = true ∧ value fu = VUndefined.
Proof.
  assert (∀ r, r ∈ [0; 1; 2] →
            ∃ fu, heap three_sinks !! r = Some (OFuture fu) ∧
                  occurred fu = false ∧ listeners fu = []) as Hall.
  { intros r Hr. exists (MkFuture false VUndefined [] FutureSink).
    repeat (apply elem_of_cons in Hr as [->|Hr]; [done|]).
    by apply elem_of_nil in Hr. }
  assert (Forall (λ rv : ref * val, rv.1 ∈ [0; 1; 2])
            [(0, VNum 1); (0, VNum 2); (1, VNum 3)]) as Hrs.
  { repeat constructor. }
  destruct (lift_fires_at_the_nth_resolution 0 add3 [0; 1; 2]
              [(0, VNum 1); (0, VNum 2); (1, VNum 3)] three_sinks)
    as (s0 & s' & fu & evs & Hnew & Hrun & HL & _ & _ & Hlong);
    [done|by apply (bool_decide_unpack _)|exact Hall|exact Hrs|].
  destruct Hlong as (Hocc & Hval & _); [simpl; lia|].
  exists s0, s', fu. auto.
Defined.

(** ** Listeners are only appended to *)

Lemma keeps_refl s : keeps s s.
Proof. split; [done|]. intros r fu Hr. by exists fu. Qed.

Lemma keeps_trans s1 s2 s3 : keeps s1 s2 → keeps s2 s3 → keeps s1 s3.
Proof.
  intros [L12 F12] [L23 F23]. split; [lia|].
  intros r fu Hr.
  destruct (F12 _ _ Hr) as (fu2 & H2 & P2).
  destruct (F23 _ _ H2) as (fu3 & H3 & P3).
  exists fu3. split; [done|]. by etrans.
Qed.

Lemma steady_bind {A B} (m : M A) (k : A → M B) :
  steady m → (∀ a, steady (k a)) → steady (m ≫= k).
Proof.
  intros Hm Hk s. apply final_bind. specialize (Hm s).
  destruct (m s) as [a s'| |]; simpl in *; auto.
  eapply final_impl; [|apply Hk]. eauto using keeps_trans.
Qed.

Lemma steady_ret {A} (a : A) : steady (mret a).
Proof. intros s. apply keeps_refl. Qed.

Lemma steady_throw {A} e : steady (@throw A e).
Proof. intros s. apply keeps_refl. Qed.

Lemma steady_getObj r : steady (getObj r).
Proof. intros s. unfold getObj. destruct (heap s !! r); apply keeps_refl. Qed.

Lemma steady_getFuture r : steady (getFuture r).
Proof.
  apply steady_bind; [apply steady_getObj|].
  intros [fu|f p]; [apply steady_ret|apply steady_throw].
Qed.

Lemma steady_emit e : steady (emit e).
Proof. intros s. split; simpl; [done|]. intros r fu Hr. by exists fu. Qed.

Lemma steady_alloc o : steady (alloc o).
Proof.
  intros s. split; simpl.
  - rewrite length_app. lia.
  - intros r fu Hr. exists fu. split; [|done].
    rewrite lookup_app_l; [done|]. by eapply lookup_lt_Some.
Qed.

Lemma steady_removeListener b o : steady (removeListener b o).
Proof.
  intros s. unfold removeListener.
  destruct (behaviors s !! b); simpl; [|apply keeps_refl].
  split; simpl; [done|]. intros r fu Hr. by exists fu.
Qed.

Lemma steady_addListener b o : steady (addListener b o).
Proof.
  intros s. unfold addListener.
  destruct (behaviors s !! b); simpl; [|apply keeps_refl].
  split; simpl; [done|]. intros r fu Hr. by exists fu.
Qed.

Lemma steady_for_loop n lo body :
  (∀ i, steady (body i)) → steady (for_loop n lo body).
Proof.
  intros Hb. revert lo. induction n as [|n IH]; intros lo; simpl.
  - apply steady_ret.
  - apply steady_bind; auto.
Qed.

(** Overwriting a future keeps the listeners when the new record has the
    old listeners as a prefix of its own. *)
Lemma keeps_setFuture s r fu fu' :
  heap s !! r = Some (OFuture fu) →
  listeners fu `prefix_of` listeners fu' →
  final (setFuture r fu' s) (keeps s).
Proof.
  intros Hr Hp. simpl. split; simpl.
  - by rewrite length_insert.
  - intros r' fu0 Hr'. destruct (decide (r = r')) as [->|Hne].
    + rewrite list_lookup_insert_eq; [|by eapply lookup_lt_Some].
      exists fu'. split; [done|]. by replace fu0 with fu by congruence.
    + rewrite list_lookup_insert_ne by done. by exists fu0.
Qed.

Lemma steady_update r (g : future → future) :
  (∀ fu, listeners fu `prefix_of` listeners (g fu)) →
  steady (fu ← getFuture r; setFuture r (g fu)).
Proof.
  intros Hg s. apply final_getFuture; [apply keeps_refl|].
  intros fu Hfu. by eapply keeps_setFuture.
Qed.

Lemma final_then_keeps {B} (m : M unit) (k : M B) s :
  final (m s) (keeps s) →
  steady k →
  final ((m;; k) s) (keeps s).
Proof.
  intros Hm Hk. apply final_bind. destruct (m s) as [[] s1| |]; simpl in *;
    [|done..].
  eapply final_impl; [|apply Hk]. eauto using keeps_trans.
Qed.

Lemma steady_slot_value x : steady (slot_value x).
Proof.
  destruct x as [r|[]]; simpl; try apply steady_ret; try apply steady_throw.
  apply steady_bind; [apply steady_getObj|]. intros []; apply steady_ret.
Qed.

Lemma steady_lift_slots this : steady (lift_slots this).
Proof.
  apply steady_bind; [apply steady_getFuture|].
  intros fu. destruct (cls fu); try apply steady_throw. apply steady_ret.
Qed.

Section SteadyMethods.
Variable push : ref → val → M unit.
Hypothesis steady_push : ∀ o v, steady (push o v).

Lemma steady_listen this o : steady (listen push this o).
Proof using steady_push.
  intros s. unfold listen. apply final_getFuture; [apply keeps_refl|].
  intros fu Hfu. destruct (occurred fu).
  - apply steady_push.
  - eapply keeps_setFuture; [done|]. simpl. by apply prefix_app_r.
Qed.

Lemma steady_resolve this v : steady (resolve push this v).
Proof using steady_push.
  intros s. unfold resolve. apply final_getFuture; [apply keeps_refl|].
  intros fu Hfu. apply final_then_keeps.
  - by eapply keeps_setFuture.
  - apply steady_bind; [apply steady_emit|]. intros _.
    apply steady_for_loop. intros i.
    apply steady_bind; [apply steady_getFuture|]. intros fu'.
    destruct (listeners fu' !! i); [apply steady_push|apply steady_throw].
Qed.

Lemma steady_construct o parent :
  steady (this ← alloc o; listen push parent this;; mret this).
Proof using steady_push.
  apply steady_bind; [apply steady_alloc|]. intros this.
  apply steady_bind; [apply steady_listen|]. intros _. apply steady_ret.
Qed.

Lemma steady_newLiftFuture f futures : steady (newLiftFuture push f futures).
Proof using steady_push.
  apply steady_bind; [apply steady_alloc|]. intros this.
  apply steady_bind; [|intros _; apply steady_ret].
  apply steady_for_loop. intros i.
  destruct (futures !! i); [apply steady_listen|apply steady_throw].
Qed.

Lemma steady_lift f args : steady (lift push f args).
Proof using steady_push.
  unfold lift. destruct (fn_length f =? 1).
  - destruct (args !! 0); [apply steady_construct|apply steady_throw].
  - apply steady_newLiftFuture.
Qed.

Lemma steady_build e : steady (build push e).
Proof using steady_push.
  induction e as [r|v| |g e IH|v e IH|g e IH|g es IH] using fexpr_ind;
    simpl.
  - apply steady_ret.
  - apply steady_alloc.
  - apply steady_alloc.
  - apply steady_bind; [done|]. intros p. apply steady_construct.
  - apply steady_bind; [done|]. intros p. apply steady_construct.
  - apply steady_bind; [done|]. intros p. apply steady_construct.
  - apply steady_bind; [|intros ps; apply steady_lift].
    induction IH as [|e es He _ IHes]; [apply steady_ret|].
    apply steady_bind; [done|]. intros p.
    apply steady_bind; [done|]. intros ps. apply steady_ret.
Qed.

Lemma steady_push_method o v : steady (push_method push o v).
Proof using steady_push.
  intros s. unfold push_method. apply final_bind. unfold getObj.
  destruct (heap s !! o) as [[fu|f p]|] eqn:Ho; simpl;
    [|apply steady_emit|apply keeps_refl].
  destruct (cls fu) eqn:Hc.
  - apply steady_resolve.
  - apply steady_resolve.
  - apply keeps_refl.
  - unfold pushLift. apply final_then_keeps; [by eapply keeps_setFuture|].
    destruct (S delivered =? dependencies); [|apply steady_ret].
    apply steady_bind.
    + apply steady_for_loop. intros i.
      apply steady_bind; [apply steady_lift_slots|]. intros xs.
      destruct (xs !! i); [|apply steady_throw].
      apply steady_bind; [apply steady_slot_value|]. intros w.
      by apply (steady_update o (with_cls _)).
    + intros _. apply steady_bind; [apply steady_lift_slots|]. intros xs.
      apply steady_resolve.
  - unfold pushChain. destruct parentOccurred; simpl.
    + apply steady_resolve.
    + apply final_then_keeps; [by eapply keeps_setFuture|].
      apply steady_bind; [apply steady_build|]. intros q.
      apply steady_listen.
  - apply keeps_refl.
  - apply steady_bind; [apply steady_removeListener|]. intros _.
    apply steady_resolve.
Qed.
End SteadyMethods.

Lemma steady_push n o v : steady (push n o v).
Proof.
  revert o v. induction n as [|n IH]; intros o v.
  - intros s. exact I.
  - simpl. by apply steady_push_method.
Qed.

(** X11. Whatever a call does, and however it ends: no object is removed
    from the heap, every future is still a future, and the listeners of
    every future were only appended to, none removed or reordered.  This
    holds for [push] at any depth and for [resolve], [listen],
    [subscribe], [map], [mapTo], [chain] and [lift]. *)
Theorem listeners_are_only_appended n s :
  (∀ o v, final (push n o v s) (keeps s)) ∧
  (∀ this v, final (resolve (push n) this v s) (keeps s)) ∧
  (∀ this o, final (listen (push n) this o s) (keeps s)) ∧
  (∀ f this, final (subscribe (push n) f this s) (keeps s)) ∧
  (∀ f this, final (map (push n) f this s) (keeps s)) ∧
  (∀ b this, final (mapTo (push n) b this s) (keeps s)) ∧
  (∀ f this, final (chain (push n) f this s) (keeps s)) ∧
  (∀ f args, final (lift (push n) f args s) (keeps s)).
Proof.
  pose proof (steady_push n) as Hp.
  repeat split; intros.
  - apply steady_push.
  - by apply steady_resolve.
  - by apply steady_listen.
  - apply steady_bind; [by apply steady_construct|].
    intros _. apply steady_ret.
  - by apply steady_construct.
  - by apply steady_construct.
  - by apply steady_construct.
  - by apply steady_lift.
Qed.

(** X12. Occurrence is permanent.  Whatever a call does, and however it
    ends: a future that had occurred has still occurred and has exactly
    the listeners it had, a subscription is unchanged, and the log was
    only appended to.  This holds for [push] at any depth and for
    [resolve], [listen], [subscribe], [map], [mapTo], [chain] and
    [lift]. *)
Theorem occurrence_is_permanent n s :
  (∀ o v, final (push n o v s) (evolves s)) ∧
  (∀ this v, final (resolve (push n) this v s) (evolves s)) ∧
  (∀ this o, final (listen (push n) this o s) (evolves s)) ∧
  (∀ f this, final (subscribe (push n) f this s) (evolves s)) ∧
  (∀ f this, final (map (push n) f this s) (evolves s)) ∧
  (∀ b this, final (mapTo (push n) b this s) (evolves s)) ∧
  (∀ f this, final (chain (push n) f this s) (evolves s)) ∧
  (∀ f args, final (lift (push n) f args s) (evolves s)).
Proof.
  pose proof (mono_push n) as Hp.
  repeat split; intros.
  - apply mono_push.
  - by apply mono_resolve.
  - by apply mono_listen.
  - apply mono_bind.
    + apply mono_bind; [apply mono_alloc|]. intros r.
      apply mono_bind; [by apply mono_listen|]. intros _. apply mono_ret.
    + intros _. apply mono_ret.
  - by apply mono_newMapFuture.
  - by apply mono_newMapToFuture.
  - by apply mono_newChainFuture.
  - by apply mono_lift.
Qed.

(** ** The life of a behavior adapter *)

(** X13. [new BehaviorFuture(b)] allocates a pending future and registers
    it as an observer of [b]; the first push of a value [a] to it removes
    it from the observers, makes it occur with [a], and the log shows the
    registration, the removal and the resolution, in this order. *)
Theorem behavior_future_occurs_at_first_push n s b obs a :
  behaviors s !! b = Some obs →
  let r := length (heap s) in
  ∃ s1 s2,
    newBehaviorFuture b s = Ok r s1 ∧
    heap s1 !! r
    = Some (OFuture (MkFuture false VUndefined [] (BehaviorFuture b))) ∧
    behaviors s1 !! b = Some (obs ++ [r]) ∧
    push (S n) r a s1 = Ok () s2 ∧
    heap s2 !! r = Some (OFuture (MkFuture true a [] (BehaviorFuture b))) ∧
    behaviors s2 !! b = Some (filter (λ x, x ≠ r) obs) ∧
    log s2 = log s ++ [Added b r; Removed b r; Resolved r a].
Proof.
  intros Hb r. pose proof (lookup_lt_Some _ _ _ Hb) as Hlt.
  set (o := OFuture (MkFuture false VUndefined [] (BehaviorFuture b))).
  set (s1 := MkState (heap s ++ [o]) (<[b := obs ++ [r]]> (behaviors s))
                     (log s ++ [Added b r])).
  assert (heap s1 !! r = Some o) as Hr.
  { simpl. rewrite lookup_app_r by done. by rewrite Nat.sub_diag. }
  assert (behaviors s1 !! b = Some (obs ++ [r])) as Hb1.
  { simpl. by rewrite list_lookup_insert_eq. }
  set (s1' := MkState (heap s1)
                (<[b := filter (λ x, x ≠ r) (obs ++ [r])]> (behaviors s1))
                (log s1 ++ [Removed b r])).
  assert (heap s1' !! r = Some o) as Hr' by done.
  exists s1, (settled r a (MkFuture false VUndefined [] (BehaviorFuture b)) s1').
  split; [|split; [done|split; [done|split; [|split; [|split]]]]].
  - unfold newBehaviorFuture. rewrite (bind_ok _ _ _ _ _ (fresh_grows _ _ _ s)).
    assert (addListener b r (grow o s) = Ok () s1) as Hadd.
    { with_strategy transparent [grow] (unfold addListener, grow; simpl).
      by rewrite Hb. }
    by rewrite (bind_ok _ _ _ _ _ Hadd).
  - simpl. unfold push_method.
    rewrite (bind_ok _ _ _ _ _ (getObj_ok _ _ _ Hr)). simpl.
    assert (removeListener b r s1 = Ok () s1') as Hrm.
    { unfold removeListener. by rewrite Hb1. }
    rewrite (bind_ok _ _ _ _ _ Hrm).
    by apply resolve_no_listener.
  - simpl. rewrite list_lookup_insert_eq; [done|].
    rewrite length_app. simpl. unfold r. lia.
  - simpl. rewrite list_insert_insert_eq.
    rewrite list_lookup_insert_eq by done.
    rewrite filter_app. rewrite (filter_cons_False _ r); [|by intros ?].
    by rewrite filter_nil, app_nil_r.
  - simpl. by rewrite <- !app_assoc.
Qed.

Lemma behavior_future_witness :
  ∃ s1 s2,
    newBehaviorFuture 0 (MkState [] [[]] []) = Ok 0 s1 ∧
    push 1 0 (VNum 5) s1 = Ok () s2 ∧
    log s2 = [Added 0 0; Removed 0 0; Resolved 0 (VNum 5)].
Proof.
  destruct (behavior_future_occurs_at_first_push 0 (MkState [] [[]] []) 0 []
              (VNum 5) eq_refl)
    as (s1 & s2 & H1 & _ & _ & H2 & _ & _ & H3).
  by exists s1, s2.
Defined.

(** ** A chain of maps *)

Lemma maps_at_frame fs : ∀ a par t t',
  (∀ r, a ≤ r → heap t' !! r = heap t !! r) →
  maps_at t a par fs → maps_at t' a par fs.
Proof.
  induction fs as [|f fs IH]; intros a par t t' Hfr; [done|].
  simpl. intros [Ha Hrest]. split.
  - rewrite Hfr by lia. done.
  - eapply IH; [|done]. intros r Hr. apply Hfr. lia.
Qed.

(** Building the chain on a pending future [B]. *)
Lemma map_each_builds p fs : ∀ B s fb,
  heap s !! B = Some (OFuture fb) →
  occurred fb = false →
  fs ≠ [] →
  ∃ s1,
    map_each p fs B s = Ok (length (heap s) + length fs - 1) s1 ∧
    maps_at s1 (length (heap s)) B fs ∧
    heap s1 !! B
    = Some (OFuture (with_listeners (listeners fb ++ [length (heap s)]) fb)) ∧
    (∀ r, r < length (heap s) → r ≠ B → heap s1 !! r = heap s !! r) ∧
    log s1 = log s.
Proof.
  induction fs as [|f fs IH]; intros B s fb HB Hocc Hne; [done|].
  pose proof (lookup_lt_Some _ _ _ HB) as Hlt.
  set (a := length (heap s)).
  set (m := MkFuture false VUndefined [] (MapFuture f B)).
  set (s' := put B (with_listeners (listeners fb ++ [a]) fb)
                 (grow (OFuture m) s)).
  assert (map p f B s = Ok a s') as Hmap by by apply map_pending.
  destruct fs as [|f' fs'].
  - exists s'. simpl. rewrite (bind_ok _ _ _ _ _ Hmap).
    split; [|split; [|split; [|split]]].
    + simpl. f_equal. unfold a. lia.
    + split; [|done]. unfold s'. heap_solve.
    + unfold s'. heap_solve.
    + intros r Hr HrB. unfold s'. by heap_simpl.
    + unfold s'. by heap_simpl.
  - assert (heap s' !! a = Some (OFuture m)) as Ha by (unfold s'; heap_solve).
    assert (length (heap s') = S a) as Hlen by (unfold s'; by heap_lengths).
    destruct (IH a s' m Ha eq_refl ltac:(done))
      as (s1 & Hrun & Hmaps & Hm & Hfr & Hlog).
    rewrite Hlen in *.
    exists s1. split; [|split; [|split; [|split]]].
    + change (map_each p (f :: f' :: fs') B s)
        with ((r ← map p f B; map_each p (f' :: fs') r) s).
      rewrite (bind_ok _ _ _ _ _ Hmap), Hrun. f_equal. simpl. lia.
    + split; [|done]. by rewrite Hm.
    + rewrite Hfr by (unfold a; lia). unfold s'. heap_solve.
    + intros r Hr HrB. rewrite Hfr by (unfold a in *; lia).
      unfold s'. by heap_simpl.
    + rewrite Hlog. unfold s'. by heap_simpl.
Qed.

(** A push to the first map of the chain goes through all of it. *)
Lemma push_maps n fs : ∀ a par t v,
  maps_at t a par fs →
  fs ≠ [] →
  ∃ t',
    push (length fs + n) a v t = Ok () t' ∧
    (∀ i f, fs !! i = Some f →
       ∃ fm, heap t' !! (a + i) = Some (OFuture fm) ∧
             occurred fm = true ∧
             value fm = apply_all (take (S i) fs) v) ∧
    (∀ r, r < a → heap t' !! r = heap t !! r) ∧
    log t' = log t ++ map_events a fs v.
Proof.
  induction fs as [|f fs IH]; intros a par t v Hmaps Hne; [done|].
  destruct Hmaps as [Ha Hrest].
  pose proof (lookup_lt_Some _ _ _ Ha) as Hlt.
  destruct fs as [|f' fs'].
  - eexists. split; [|split; [|split]].
    + change (length [f] + n) with (S n).
      erewrite push_map; [|done|reflexivity].
      erewrite resolve_no_listener; [reflexivity|done|reflexivity].
    + intros [|i] g Hi; [|done]. injection Hi as <-.
      eexists. rewrite settled_put_logged, Nat.add_0_r.
      split; [heap_solve|]. done.
    + intros r Hr. rewrite settled_put_logged. by heap_simpl.
    + rewrite settled_put_logged. by heap_simpl.
  - set (fa := MkFuture false VUndefined [S a] (MapFuture f par)) in *.
    set (t1 := settled a (f v) fa t).
    assert (maps_at t1 (S a) a (f' :: fs')) as Hmaps1.
    { eapply maps_at_frame; [|exact Hrest]. intros r Hr.
      unfold t1. rewrite settled_put_logged. by heap_simpl. }
    destruct (IH (S a) a t1 (f v) Hmaps1 ltac:(done))
      as (t' & Hrun & Hall & Hfr & Hlog).
    exists t'. split; [|split; [|split]].
    + change (length (f :: f' :: fs') + n)
        with (S (length (f' :: fs') + n)).
      erewrite push_map; [|done|reflexivity].
      erewrite resolve_one_listener; [|done|reflexivity].
      fold t1. by rewrite Hrun.
    + intros [|i] g Hi.
      * injection Hi as <-. rewrite Nat.add_0_r, Hfr by lia.
        eexists. unfold t1. rewrite settled_put_logged.
        split; [heap_solve|]. done.
      * destruct (Hall i g Hi) as (fm & Hfm & Ho & Hv).
        exists fm. by replace (a + S i) with (S a + i) by lia.
    + intros r Hr. rewrite Hfr by lia.
      unfold t1. rewrite settled_put_logged. by heap_simpl.
    + rewrite Hlog. unfold t1. rewrite settled_put_logged. heap_simpl.
      by rewrite <- app_assoc.
Qed.

(** X14. [F.map(f1).map(f2)...map(fk)] on a pending future [F] whose
    listeners are subscriptions: when [F] is resolved with [v], the [i]-th
    map future occurs with [fi (... (f1 v))], the last one with all the
    functions applied in the order of the calls; the subscribers of [F]
    are called first, and then the map futures are resolved from the first
    to the last, each one once. *)
Theorem map_chain_applies_in_order n s F fu gs fs v :
  heap s !! F = Some (OFuture fu) →
  occurred fu = false →
  subscribed s (listeners fu) gs →
  ∃ last s1 s2,
    map_each (push n) fs F s = Ok last s1 ∧
    resolve (push (S (length fs + n))) F v s1 = Ok () s2 ∧
    (∀ i f, fs !! i = Some f →
       ∃ fm, heap s2 !! (length (heap s) + i) = Some (OFuture fm) ∧
             occurred fm = true ∧
             value fm = apply_all (take (S i) fs) v) ∧
    stored s2 last = apply_all fs v ∧
    log s2
    = log s ++ Resolved F v :: calls gs v ++ map_events (length (heap s)) fs v.
Proof.
  intros HF Hocc Hsub. pose proof (lookup_lt_Some _ _ _ HF) as Hlt.
  destruct (decide (fs = [])) as [->|Hne].
  - exists F, s. eexists. split; [done|]. split; [|split; [|split]].
    + by apply resolve_subscribed.
    + done.
    + unfold stored. rewrite settled_put_logged. by heap_simpl'.
    + rewrite settled_put_logged. heap_simpl'. simpl.
      by rewrite app_nil_r, <- app_assoc.
  - destruct (map_each_builds (push n) fs F s fu HF Hocc Hne)
      as (s1 & Hrun & Hmaps & HF1 & Hfr & Hlog).
    set (a := length (heap s)) in *.
    set (fu1 := with_listeners (listeners fu ++ [a]) fu) in *.
    set (t := logged_all (calls gs v) (settled F v fu1 s1)).
    assert (subscribed s1 (listeners fu) gs) as Hsub1.
    { eapply Forall2_impl; [exact Hsub|]. intros o g [p Ho]. exists p.
      rewrite Hfr; [done|by eapply lookup_lt_Some|]. intros ->. congruence. }
    assert (maps_at t a F fs) as Hmapst.
    { eapply maps_at_frame; [|exact Hmaps]. intros r Hr.
      unfold t. rewrite settled_put_logged. by heap_simpl'. }
    destruct (push_maps (S n) fs a F t v Hmapst Hne)
      as (s2 & Hpush & Hall & Hfr2 & Hlog2).
    exists (a + length fs - 1), s1, s2. split; [done|]. split; [|split; [|split]].
    + replace (S (length fs + n)) with (length fs + S n) by lia.
      destruct fs as [|f0 fs0]; [done|].
      change (length (f0 :: fs0) + S n) with (S (length fs0 + S n)) in *.
      erewrite resolve_subscribed_then; [|exact HF1|reflexivity|done].
      fold t. by rewrite (bind_ok _ _ _ _ _ Hpush).
    + done.
    + destruct (lookup_lt_is_Some_2 fs (length fs - 1)) as [f Hf].
      { destruct fs; [done|]. simpl. lia. }
      destruct (Hall _ _ Hf) as (fm & Hfm & _ & Hv).
      unfold stored. replace (a + length fs - 1) with (a + (length fs - 1)).
      2:{ destruct fs; [done|]. simpl. lia. }
      rewrite Hfm, Hv. f_equal. apply firstn_all2.
      destruct fs; [done|]. simpl. lia.
    + rewrite Hlog2. unfold t. rewrite settled_put_logged. heap_simpl'.
      rewrite Hlog. rewrite <- !app_assoc. done.
Qed.

Lemma map_chain_witness :
  ∃ last s1 s2,
    map_each (push 0) [times2; times2; times2] 0
      (MkState [OFuture (MkFuture false VUndefined [] FutureSink)] [] [])
    = Ok last s1 ∧
    resolve (push 4) 0 (VNum 1) s1 = Ok () s2 ∧
    stored s2 last = VNum 8.
Proof.
  destruct (map_chain_applies_in_order 0
              (MkState [OFuture (MkFuture false VUndefined [] FutureSink)] [] [])
              0 (MkFuture false VUndefined [] FutureSink) []
              [times2; times2; times2] (VNum 1) eq_refl eq_refl
              (Forall2_nil_2 _ _ _))
    as (last & s1 & s2 & H1 & H2 & _ & H3 & _).
  by exists last, s1, s2.
Defined.
